(** * Edge-GallyRAG pipeline compiler: a shallow embedding of
    [pipeline-builder/src/utils/codeGenerator.ts]

    The development follows the class [CodeGenerator]: the pipeline data
    model, [buildPipeline], the validator [validatePipeline], the scheduler
    [topologicalSort], the Kotlin emitter and the entry points [generate] and
    [generateCodeFromPipeline]; then the constructor on nodes of any shape,
    the connection handler of the canvas and the handler of the application
    that calls the generator.

    Conventions of the embedding:
    - a JavaScript string is a [string]; each [ascii] stands for one UTF-16
      code unit below 256, so the model covers Latin-1 text;
    - the two [Set<string>] of the scheduler are [gset string], the
      [result] array is a [list string];
    - a JavaScript exception is the [Throw] case of the [Exc] monad, and
      [try]/[catch] is [tryCatch];
    - readings of the wall clock ([Date.now()], [new Date()]) are passed in
      as a [Clock] record, one field per reading;
    - values have the shapes that [types/pipeline.ts] declares: ports come
      in arrays, ids and labels are strings; what the constructor does with
      node data of other shapes is modelled apart, in [Untyped]. *)

From Stdlib Require Import String Ascii List ZArith Lia.
From stdpp Require Import base tactics option list relations sets gmap strings pretty.

Open Scope string_scope.
Open Scope list_scope.
Open Scope stdpp_scope.

Set Warnings "-clear-no-such-hyp".

(** ** JavaScript runtime primitives used by the generator *)

Module Js.

(** Outcome of a computation that may throw an [Error] with a message. *)
Inductive Exc (A : Type) : Type :=
| Return (a : A)
| Throw (message : string).
Arguments Return {A} a.
Arguments Throw {A} message.

Definition bind {A B} (m : Exc A) (k : A → Exc B) : Exc B :=
  match m with
  | Return a => k a
  | Throw msg => Throw msg
  end.

(** [try { body } catch (error) { handler }] where every thrown value is
    an [Error]; the handler receives [error.message] and may itself
    throw. *)
Definition tryCatch {A} (body : Exc A) (handler : string → Exc A) : Exc A :=
  match body with
  | Return a => Return a
  | Throw msg => handler msg
  end.

(** [Array.prototype.map] with a callback that may throw: elements are
    processed left to right and the first exception aborts the loop. *)
Fixpoint mapM {A B} (f : A → Exc B) (l : list A) : Exc (list B) :=
  match l with
  | [] => Return []
  | x :: rest =>
      bind (f x) (λ y, bind (mapM f rest) (λ ys, Return (y :: ys)))
  end.

(** [Array.prototype.join]. *)
Fixpoint join (sep : string) (l : list string) : string :=
  match l with
  | [] => ""
  | [x] => x
  | x :: rest => x +:+ sep +:+ join sep rest
  end.

(** The double-quote and line-feed characters. *)
Definition dq : string :=
  String (Ascii false true false false false true false false) EmptyString.
Definition nl : string :=
  String (Ascii false true false true false false false false) EmptyString.

(** A multi-line template literal, given line by line. *)
Definition lines (l : list string) : string := join nl l.

(** [a || b] on strings that may be [undefined]: the empty string and
    [undefined] are falsy. *)
Definition orString (o : option string) (dflt : string) : string :=
  match o with
  | Some s => if decide (s = "") then dflt else s
  | None => dflt
  end.

(** [a || b] on values that are objects or arrays when present. *)
Definition orElse {A} (o : option A) (dflt : A) : A :=
  match o with
  | Some a => a
  | None => dflt
  end.

Definition inRange (lo hi : N) (c : ascii) : bool :=
  (N.leb lo (N_of_ascii c) && N.leb (N_of_ascii c) hi)%bool.

(** [String.prototype.toLowerCase] on code units below 256: [A-Z] and the
    Latin-1 capitals U+00C0..U+00DE other than U+00D7 move up by 32. *)
Definition lowerChar (c : ascii) : ascii :=
  if (inRange 65 90 c
      || (inRange 192 222 c && negb (N.eqb (N_of_ascii c) 215)))%bool
  then ascii_of_N (N_of_ascii c + 32)
  else c.

Fixpoint toLowerCase (s : string) : string :=
  match s with
  | EmptyString => EmptyString
  | String c rest => String (lowerChar c) (toLowerCase rest)
  end.

(** [String.prototype.includes]. *)
Fixpoint includes (s needle : string) : bool :=
  (String.prefix needle s
   || match s with
      | EmptyString => false
      | String _ rest => includes rest needle
      end)%bool.

(** [s.replace(/[^a-zA-Z0-9]/g, '_')]. *)
Definition isAlnum (c : ascii) : bool :=
  (inRange 97 122 c || inRange 65 90 c || inRange 48 57 c)%bool.

Definition underscore : ascii :=
  Ascii true true true true true false true false.

Fixpoint replaceNonAlnum (s : string) : string :=
  match s with
  | EmptyString => EmptyString
  | String c rest =>
      String (if isAlnum c then c else underscore) (replaceNonAlnum rest)
  end.

(** A configuration value as the generator observes it: its [typeof]
    class, its rendering inside a template literal, and, for values that
    are neither string, number nor boolean, what [JSON.stringify] does
    with it (it throws on cyclic objects and on BigInt). *)
Inductive Value : Type :=
| VString (s : string)
| VNumber (text : string)
| VBoolean (b : bool)
| VOther (json : Exc string).

End Js.

Import Js.

Global Instance Exc_ret : MRet Exc := @Return.
Global Instance Exc_bind : MBind Exc := λ A B k m, Js.bind m k.

(** ** Data model ([types/pipeline.ts], as used by the generator) *)

(** The enumeration [DataType]; [compatibilityRules] is a
    [Record<DataType, DataType[]>] and lists its seven members. *)
Inductive DataType : Type :=
| PDF | TEXT | CHUNKS | EMBEDDINGS | JSON | BOOLEAN | NUMBER.

Global Instance DataType_eq_dec : EqDecision DataType.
Proof. solve_decision. Defined.

(** The string values of the members of [DataType], as interpolated into
    messages: the constant [DataType] of [types/pipeline.ts]. *)
Definition dataTypeName (t : DataType) : string :=
  match t with
  | PDF => "pdf"
  | TEXT => "text"
  | CHUNKS => "chunks"
  | EMBEDDINGS => "embeddings"
  | JSON => "json"
  | BOOLEAN => "boolean"
  | NUMBER => "number"
  end.

(** A node category is the string found in [node.data.type]; the cast
    [as NodeType] does not check it, so any string can arrive. *)
Definition NodeType := string.

(** The six members of the constant [NodeType] of [types/pipeline.ts], with
    their string values. *)

Module NodeType.
Definition INPUT : NodeType := "input".
Definition PROCESSING : NodeType := "processing".
Definition RETRIEVAL : NodeType := "retrieval".
Definition LLM : NodeType := "llm".
Definition LOGIC : NodeType := "logic".
Definition OUTPUT : NodeType := "output".

End NodeType.

Record Port := {
  port_id : string;
  port_label : string;
  port_dataType : DataType;
  port_required : bool
}.

(** [node.data.config]: the entries of the object in [Object.entries] order. *)
Definition Config := list (string * Js.Value).

(** React Flow [Node] of the declared shape: [data] and each of its fields
    may be absent, and a field that is present holds a value of the type
    [PipelineNodeData] declares for it. Nodes of other shapes are the
    subject of [Untyped] below. *)
Record FlowNode := {
  fn_id : string;
  fn_type : option string;
  fn_label : option string;
  fn_description : option string;
  fn_icon : option string;
  fn_inputs : option (list Port);
  fn_outputs : option (list Port);
  fn_config : option Config
}.

(** React Flow [Edge]: the handles may be [null] or [undefined]. *)
Record FlowEdge := {
  fe_id : string;
  fe_source : string;
  fe_target : string;
  fe_sourceHandle : option string;
  fe_targetHandle : option string
}.

Record NodeData := {
  d_id : string;
  d_type : NodeType;
  d_label : string;
  d_description : string;
  d_icon : string;
  d_inputs : list Port;
  d_outputs : list Port;
  d_config : Config
}.

Record PipelineNode := {
  n_id : string;
  n_type : NodeType;
  n_data : NodeData
}.

Record PipelineEdge := {
  e_id : string;
  e_source : string;
  e_target : string;
  e_sourceHandle : option string;
  e_targetHandle : option string;
  e_sourcePort : string;
  e_targetPort : string;
  e_dataType : DataType;
  e_validated : bool
}.

Record Pipeline := {
  p_id : string;
  p_name : string;
  p_description : string;
  p_version : string;
  p_nodes : list PipelineNode;
  p_edges : list PipelineEdge;
  p_createdAt : Z;
  p_updatedAt : Z;
  p_isValid : bool;
  p_validationErrors : list string
}.

Record GeneratedCode := {
  success : bool;
  kotlinCode : option string;
  buildGradle : option string;
  errors : list string;
  warnings : list string
}.

(** The wall-clock readings of one compilation, in program order:
    [Date.now()], the two [new Date()] of [buildPipeline] (milliseconds) and
    [new Date().toISOString()] of [generateKotlinCode]. *)
Record Clock := {
  clk_now : Z;
  clk_createdAt : Z;
  clk_updatedAt : Z;
  clk_generatedAt : string
}.

(** [nodes.find(n => n.id === id)]. *)
Definition findNode (nodes : list PipelineNode) (id : string) : option PipelineNode :=
  List.find (λ n, bool_decide (n_id n = id)) nodes.

(** [ports.find(p => p.id === handle)]; a [null] handle matches no port. *)
Definition findPort (ports : list Port) (handle : option string) : option Port :=
  List.find (λ p, bool_decide (Some (port_id p) = handle)) ports.

(** ** [buildPipeline] *)

Definition inferDataType (edge : FlowEdge) (nodes : list PipelineNode) : DataType :=
  match findNode nodes (fe_source edge) with
  | Some sourceNode =>
      match findPort (d_outputs (n_data sourceNode)) (fe_sourceHandle edge) with
      | Some sourcePort => port_dataType sourcePort
      | None => TEXT
      end
  | None => TEXT
  end.

Definition buildNode (node : FlowNode) : PipelineNode :=
  {| n_id := fn_id node;
     n_type := orString (fn_type node) NodeType.PROCESSING;
     n_data :=
       {| d_id := fn_id node;
          d_type := orString (fn_type node) NodeType.PROCESSING;
          d_label := orString (fn_label node) "Unknown Node";
          d_description := orString (fn_description node) "";
          d_icon := orString (fn_icon node) "Circle";
          d_inputs := orElse (fn_inputs node) [];
          d_outputs := orElse (fn_outputs node) [];
          d_config := orElse (fn_config node) [] |} |}.

Definition buildEdge (pipelineNodes : list PipelineNode) (edge : FlowEdge) : PipelineEdge :=
  {| e_id := fe_id edge;
     e_source := fe_source edge;
     e_target := fe_target edge;
     e_sourceHandle := fe_sourceHandle edge;
     e_targetHandle := fe_targetHandle edge;
     e_sourcePort := orString (fe_sourceHandle edge) "output";
     e_targetPort := orString (fe_targetHandle edge) "input";
     e_dataType := inferDataType edge pipelineNodes;
     e_validated := true |}.

Definition buildPipeline (clock : Clock) (nodes : list FlowNode)
    (edges : list FlowEdge) (name : string) : Pipeline :=
  let pipelineNodes := buildNode <$> nodes in
  let pipelineEdges := buildEdge pipelineNodes <$> edges in
  {| p_id := "pipeline-" +:+ pretty (clk_now clock);
     p_name := name;
     p_description :=
       "Generated pipeline with " +:+ pretty (length nodes) +:+ " nodes and "
       +:+ pretty (length edges) +:+ " connections";
     p_version := "1.0.0";
     p_nodes := pipelineNodes;
     p_edges := pipelineEdges;
     p_createdAt := clk_createdAt clock;
     p_updatedAt := clk_updatedAt clock;
     p_isValid := true;
     p_validationErrors := [] |}.

(** ** Validator *)

(** [compatibilityRules]. *)
Definition compatibilityRules (sourceType : DataType) : list DataType :=
  match sourceType with
  | PDF => [TEXT]
  | TEXT => [CHUNKS]
  | CHUNKS => [EMBEDDINGS; TEXT]
  | EMBEDDINGS => []
  | JSON => [TEXT]
  | BOOLEAN => [TEXT]
  | NUMBER => [TEXT]
  end.

Definition isDataTypeCompatible (sourceType targetType : DataType) : bool :=
  if decide (sourceType = targetType) then true
  else bool_decide (targetType ∈ compatibilityRules sourceType).

Definition missingInputMessage : string :=
  "Pipeline must have at least one input node".
Definition missingOutputMessage : string :=
  "Pipeline must have at least one output node".
Definition invalidConnectionMessage (edge : PipelineEdge) : string :=
  "Invalid connection: " +:+ e_source edge +:+ " -> " +:+ e_target edge.
Definition incompatibleMessage (sourceType targetType : DataType)
    (sourceLabel targetLabel : string) : string :=
  "Incompatible data types: " +:+ dataTypeName sourceType +:+ " -> "
  +:+ dataTypeName targetType +:+ " (" +:+ sourceLabel +:+ " -> "
  +:+ targetLabel +:+ ")".

Definition nodesOfType (t : NodeType) (nodes : list PipelineNode) : list PipelineNode :=
  filter (λ node, d_type (n_data node) = t) nodes.

(** The body of the loop over edges: the diagnostics one edge adds. *)
Definition validateEdge (nodes : list PipelineNode) (edge : PipelineEdge) : list string :=
  match findNode nodes (e_source edge), findNode nodes (e_target edge) with
  | Some sourceNode, Some targetNode =>
      match findPort (d_outputs (n_data sourceNode)) (e_sourceHandle edge),
            findPort (d_inputs (n_data targetNode)) (e_targetHandle edge) with
      | Some sourcePort, Some targetPort =>
          if isDataTypeCompatible (port_dataType sourcePort) (port_dataType targetPort)
          then []
          else [incompatibleMessage (port_dataType sourcePort) (port_dataType targetPort)
                  (d_label (n_data sourceNode)) (d_label (n_data targetNode))]
      | _, _ => []
      end
  | _, _ => [invalidConnectionMessage edge]
  end.

Definition validatePipeline (p : Pipeline) : list string :=
  (if decide (length (nodesOfType NodeType.INPUT (p_nodes p)) = 0)
   then [missingInputMessage] else [])
  ++ (if decide (length (nodesOfType NodeType.OUTPUT (p_nodes p)) = 0)
      then [missingOutputMessage] else [])
  ++ concat (validateEdge (p_nodes p) <$> p_edges p).

(** ** Scheduler *)

(** The mutable state of [topologicalSort]. *)
Record SortState := {
  visited : gset string;
  visiting : gset string;
  result : list string
}.

(** A run of the recursive closure [visit] either finishes or exhausts the
    recursion budget of the model. *)
Inductive Outcome (A : Type) : Type :=
| OutOfFuel
| Finished (a : A).
Arguments OutOfFuel {A}.
Arguments Finished {A} a.

(** [for (const x of ids) { if (!v(x)) return false/null; }]: the shape
    shared by the loop over dependencies and the loop over nodes. *)
Fixpoint visitEach (v : string → SortState → Outcome (bool * SortState))
    (ids : list string) (st : SortState) : Outcome (bool * SortState) :=
  match ids with
  | [] => Finished (true, st)
  | x :: rest =>
      match v x st with
      | Finished (true, st') => visitEach v rest st'
      | other => other
      end
  end.

Section Scheduler.

Variable edges : list PipelineEdge.

Definition dependencies (nodeId : string) : list string :=
  e_source <$> filter (λ edge, e_target edge = nodeId) edges.

Fixpoint visit (fuel : nat) (nodeId : string) (st : SortState)
    : Outcome (bool * SortState) :=
  match fuel with
  | O => OutOfFuel
  | S fuel' =>
      if decide (nodeId ∈ visiting st) then Finished (false, st)
      else if decide (nodeId ∈ visited st) then Finished (true, st)
      else
        let st1 := {| visited := visited st;
                      visiting := {[nodeId]} ∪ visiting st;
                      result := result st |} in
        match visitEach (visit fuel') (dependencies nodeId) st1 with
        | Finished (true, st2) =>
            Finished (true, {| visited := {[nodeId]} ∪ visited st2;
                               visiting := visiting st2 ∖ {[nodeId]};
                               result := result st2 ++ [nodeId] |})
        | other => other
        end
  end.

End Scheduler.

Definition initialSortState : SortState :=
  {| visited := ∅; visiting := ∅; result := [] |}.

Definition topologicalSortFuel (fuel : nat) (p : Pipeline)
    : Outcome (option (list string)) :=
  match visitEach (visit (p_edges p) fuel) (n_id <$> p_nodes p) initialSortState with
  | OutOfFuel => OutOfFuel
  | Finished (true, st) => Finished (Some (result st))
  | Finished (false, _) => Finished None
  end.

(** A recursion budget that [visit] never exhausts (see
    [topologicalSortFuel_finishes]): one frame per node id that can be on the
    stack, plus the frame that detects the repetition. *)
Definition sortFuel (p : Pipeline) : nat :=
  S (length (p_nodes p) + length (p_edges p)).

(** [topologicalSort]: [None] is the [null] returned on a circular
    dependency. *)
Definition topologicalSort (p : Pipeline) : option (list string) :=
  match topologicalSortFuel (sortFuel p) p with
  | Finished r => r
  | OutOfFuel => None
  end.

(** ** Emitter *)

Definition targetPackage : string := "com.google.ai.edge.gallery.rag.generated".

(** [addRequiredImports]: the content of [context.imports] afterwards. *)
Definition requiredImports : list string :=
  ["import android.app.Application";
   "import com.google.ai.edge.gallery.rag.RagPipeline"].

(** Message of the [TypeError] raised by reading a property of the
    [undefined] that [find] returns for an id with no node. *)
Definition undefinedPropertyMessage (property : string) : string :=
  "Cannot read properties of undefined (reading '" +:+ property +:+ "')".

Definition formatConfigEntry (entry : string * Js.Value) : Exc string :=
  let '(key, value) := entry in
  match value with
  | VString s => Return (dq +:+ key +:+ dq +:+ " to " +:+ dq +:+ s +:+ dq)
  | VNumber text => Return (dq +:+ key +:+ dq +:+ " to " +:+ text)
  | VBoolean b =>
      Return (dq +:+ key +:+ dq +:+ " to " +:+ (if b then "true" else "false"))
  | VOther stringified =>
      json ← stringified;
      Return (dq +:+ key +:+ dq +:+ " to " +:+ dq +:+ json +:+ dq)
  end.

Definition formatConfigMap (config : Config) : Exc string :=
  entries ← mapM formatConfigEntry config;
  Return (join ", " entries).

Definition generateInputNodeLogic (node : PipelineNode) : string :=
  if includes (toLowerCase (d_label (n_data node))) "pdf" then
    lines [
      "            // PDF Input Node";
      "            val pdfResult = nodeOutputs[" +:+ dq +:+ "pdf" +:+ dq +:+ "] ?: throw IllegalArgumentException(" +:+ dq +:+ "PDF input required" +:+ dq +:+ ")"]
  else if includes (toLowerCase (d_label (n_data node))) "text" then
    lines [
      "            // Text Input Node";
      "            val textResult = nodeOutputs[" +:+ dq +:+ "text" +:+ dq +:+ "] ?: config[" +:+ dq +:+ "defaultText" +:+ dq +:+ "] ?: " +:+ dq +:+ dq]
  else
    lines [
      "            // Generic Input Node";
      "            val inputResult = nodeOutputs[" +:+ dq +:+ "data" +:+ dq +:+ "] ?: " +:+ dq +:+ dq].

Definition generateProcessingNodeLogic (node : PipelineNode) : string :=
  if includes (toLowerCase (d_label (n_data node))) "chunker" then
    lines [
      "            // Text Chunker Node";
      "            val inputText = input as? String ?: " +:+ dq +:+ dq;
      "            val chunkSize = config[" +:+ dq +:+ "chunkSize" +:+ dq +:+ "] as? Int ?: 512";
      "            val overlap = config[" +:+ dq +:+ "overlap" +:+ dq +:+ "] as? Int ?: 64";
      "            ";
      "            val chunksResult = ragPipeline.chunkText(inputText, chunkSize, overlap)"]
  else if includes (toLowerCase (d_label (n_data node))) "embedding" then
    lines [
      "            // Embedding Generator Node";
      "            val inputChunks = chunks as? List<String> ?: emptyList()";
      "            val embeddingsResult = ragPipeline.generateEmbeddings(inputChunks)"]
  else if includes (toLowerCase (d_label (n_data node))) "extractor" then
    lines [
      "            // PDF Text Extractor Node";
      "            val pdfUri = pdf as? String ?: " +:+ dq +:+ dq;
      "            val textResult = ragPipeline.extractTextFromPdf(pdfUri)"]
  else
    lines [
      "            // Generic Processing Node";
      "            val processedResult = input"].

Definition generateRetrievalNodeLogic (node : PipelineNode) : string :=
  if includes (toLowerCase (d_label (n_data node))) "search" then
    lines [
      "            // Similarity Search Node";
      "            val queryText = query as? String ?: " +:+ dq +:+ dq;
      "            val topK = config[" +:+ dq +:+ "topK" +:+ dq +:+ "] as? Int ?: 3";
      "            val threshold = config[" +:+ dq +:+ "threshold" +:+ dq +:+ "] as? Double ?: 0.0";
      "            ";
      "            val resultsResult = ragPipeline.searchSimilar(queryText, topK, threshold)"]
  else if includes (toLowerCase (d_label (n_data node))) "vector" then
    lines [
      "            // Vector Store Node";
      "            val inputEmbeddings = embeddings as? List<FloatArray> ?: emptyList()";
      "            val storedResult = ragPipeline.storeEmbeddings(inputEmbeddings)"]
  else
    lines [
      "            // Generic Retrieval Node";
      "            val retrievalResult = input"].

Definition generateLogicNodeLogic (node : PipelineNode) : string :=
  if includes (toLowerCase (d_label (n_data node))) "if" then
    lines [
      "            // If/Then Logic Node";
      "            val inputValue = input as? String ?: " +:+ dq +:+ dq;
      "            val condition = config[" +:+ dq +:+ "condition" +:+ dq +:+ "] as? String ?: " +:+ dq +:+ "contains" +:+ dq;
      "            val checkValue = config[" +:+ dq +:+ "value" +:+ dq +:+ "] as? String ?: " +:+ dq +:+ dq;
      "            ";
      "            val conditionResult = when (condition) {";
      "                " +:+ dq +:+ "contains" +:+ dq +:+ " -> inputValue.contains(checkValue)";
      "                " +:+ dq +:+ "equals" +:+ dq +:+ " -> inputValue == checkValue";
      "                " +:+ dq +:+ "startsWith" +:+ dq +:+ " -> inputValue.startsWith(checkValue)";
      "                " +:+ dq +:+ "endsWith" +:+ dq +:+ " -> inputValue.endsWith(checkValue)";
      "                else -> false";
      "            }";
      "            ";
      "            val trueResult = if (conditionResult) inputValue else null";
      "            val falseResult = if (!conditionResult) inputValue else null"]
  else
    lines [
      "            // Generic Logic Node";
      "            val logicResult = input"].

Definition unknownNodeTypeLogic : string := "            // Unknown node type".

Section Emitter.

(** [this.pipeline]. *)
Variable p : Pipeline.

Definition inputConnectionsOf (node : PipelineNode) : list PipelineEdge :=
  filter (λ edge, e_target edge = n_id node) (p_edges p).

(** [inputConnections.find(edge => edge.targetHandle === handle)] is
    truthy. *)
Definition hasInputOn (node : PipelineNode) (handle : string) : bool :=
  existsb (λ edge, bool_decide (e_targetHandle edge = Some handle))
    (inputConnectionsOf node).

Definition contextChunksExpr (node : PipelineNode) : string :=
  if hasInputOn node "context"
  then "context as? List<String> ?: emptyList()"
  else "emptyList<String>()".

Definition generateLlmNodeLogic (node : PipelineNode) : string :=
  if includes (toLowerCase (d_label (n_data node))) "gemma" then
    lines [
      "            // Gemma LLM Node";
      "            val inputPrompt = " +:+
        (if hasInputOn node "prompt"
         then "prompt as? String ?: " +:+ dq +:+ dq
         else "config[" +:+ dq +:+ "defaultPrompt" +:+ dq +:+ "] as? String ?: " +:+ dq +:+ dq);
      "            val contextChunks = " +:+ contextChunksExpr node;
      "            val temperature = config[" +:+ dq +:+ "temperature" +:+ dq +:+ "] as? Double ?: 0.8";
      "            val maxTokens = config[" +:+ dq +:+ "maxTokens" +:+ dq +:+ "] as? Int ?: 150";
      "            ";
      "            val responseResult = ragPipeline.generateResponse(inputPrompt, contextChunks, temperature, maxTokens)"]
  else if includes (toLowerCase (d_label (n_data node))) "prompt" then
    lines [
      "            // Prompt Builder Node";
      "            val userQuery = " +:+
        (if hasInputOn node "query"
         then "query as? String ?: " +:+ dq +:+ dq
         else "config[" +:+ dq +:+ "defaultQuery" +:+ dq +:+ "] as? String ?: " +:+ dq +:+ dq);
      "            val contextChunks = " +:+ contextChunksExpr node;
      "            val template = config[" +:+ dq +:+ "template" +:+ dq +:+ "] as? String ?: " +:+ dq +:+ "default" +:+ dq;
      "            ";
      "            val promptResult = ragPipeline.buildPrompt(userQuery, contextChunks, template)"]
  else
    lines [
      "            // Generic LLM Node";
      "            val llmResult = nodeOutputs[" +:+ dq +:+ "input" +:+ dq +:+ "] ?: " +:+ dq +:+ dq].

Definition generateOutputNodeLogic (node : PipelineNode) : string :=
  match inputConnectionsOf node with
  | primaryInput :: _ =>
      let inputVar := orString (e_targetHandle primaryInput) "input" in
      lines [
        "            // Output Node";
        "            val outputResult = " +:+ inputVar +:+ " ?: " +:+ dq +:+ dq]
  | [] =>
      lines [
        "            // Output Node";
        "            val outputResult = nodeOutputs[" +:+ dq +:+ "input" +:+ dq +:+ "] ?: " +:+ dq +:+ dq]
  end.

(** The [switch] on [node.data.type]. *)
Definition generateNodeLogic (node : PipelineNode) : string :=
  let type := d_type (n_data node) in
  if decide (type = NodeType.INPUT) then generateInputNodeLogic node
  else if decide (type = NodeType.PROCESSING) then generateProcessingNodeLogic node
  else if decide (type = NodeType.RETRIEVAL) then generateRetrievalNodeLogic node
  else if decide (type = NodeType.LLM) then generateLlmNodeLogic node
  else if decide (type = NodeType.LOGIC) then generateLogicNodeLogic node
  else if decide (type = NodeType.OUTPUT) then generateOutputNodeLogic node
  else unknownNodeTypeLogic.

Definition methodNameOf (nodeId : string) : string :=
  "executeNode_" +:+ replaceNonAlnum nodeId.

Definition inputMapping (edge : PipelineEdge) : string :=
  let sourceOutput := orString (e_sourceHandle edge) "output" in
  let targetInput := orString (e_targetHandle edge) "input" in
  "        val " +:+ targetInput +:+ " = nodeOutputs[" +:+ dq +:+ e_source edge +:+ "_" +:+ sourceOutput +:+ dq +:+ "]".

Definition outputAssignment (node : PipelineNode) (output : Port) : string :=
  "        nodeOutputs[" +:+ dq +:+ n_id node +:+ "_" +:+ port_id output +:+ dq +:+ "] = " +:+ port_id output +:+ "Result".

Definition generateNodeMethod (node : PipelineNode) : string :=
  let methodName := methodNameOf (n_id node) in
  let inputMappings := join nl (inputMapping <$> inputConnectionsOf node) in
  let outputAssignments :=
    join nl (outputAssignment node <$> d_outputs (n_data node)) in
  lines [
    "    /**";
    "     * Execute " +:+ d_label (n_data node);
    "     * " +:+ d_description (n_data node);
    "     */";
    "    private fun " +:+ methodName +:+ "() {";
    "        try {";
    "            val config = nodeConfigs[" +:+ dq +:+ n_id node +:+ dq +:+ "] ?: emptyMap()";
    "            ";
    "            // Get inputs from connected nodes";
    inputMappings;
    "            ";
    "            // Execute node logic";
    generateNodeLogic node;
    "            ";
    "            // Store outputs";
    outputAssignments;
    "            ";
    "        } catch (e: Exception) {";
    "            throw RuntimeException(" +:+ dq +:+ "Node '" +:+ d_label (n_data node) +:+ "' execution failed: ${e.message}" +:+ dq +:+ ", e)";
    "        }";
    "    }"].

(** [generateClassBody]: [find(...)!] yields [undefined] for an id with
    no node, and [generateNodeMethod] then throws on [node.id]. *)
Definition classBodyEntry (nodeId : string) : Exc string :=
  match findNode (p_nodes p) nodeId with
  | Some node => Return (generateNodeMethod node)
  | None => Throw (undefinedPropertyMessage "id")
  end.

Definition generateClassBody (executionOrder : list string) : Exc string :=
  methods ← mapM classBodyEntry executionOrder;
  Return (join (nl +:+ nl) methods).

Definition executionSequenceEntry (nodeId : string) : Exc string :=
  match findNode (p_nodes p) nodeId with
  | Some node =>
      Return (lines [
        "            // Execute: " +:+ d_label (n_data node);
        "            executeNode_" +:+ replaceNonAlnum nodeId +:+ "()"])
  | None => Throw (undefinedPropertyMessage "data")
  end.

Definition generateExecutionSequence (executionOrder : list string) : Exc string :=
  calls ← mapM executionSequenceEntry executionOrder;
  Return (join (nl +:+ nl) calls).

Definition nodeConfiguration (node : PipelineNode) : Exc string :=
  entries ← formatConfigMap (d_config (n_data node));
  Return ("        nodeConfigs[" +:+ dq +:+ n_id node +:+ dq +:+ "] = mapOf(" +:+ entries +:+ ")").

Definition generateNodeConfigurations : Exc string :=
  configs ← mapM nodeConfiguration (p_nodes p);
  Return (join nl configs).

Definition outputExtractionEntry (node : PipelineNode) : string :=
  let outputPort := orString (port_id <$> head (d_outputs (n_data node))) "output" in
  "        finalOutputs[" +:+ dq +:+ d_label (n_data node) +:+ dq +:+ "] = nodeOutputs[" +:+ dq +:+ n_id node +:+ "_" +:+ outputPort +:+ dq +:+ "] ?: " +:+ dq +:+ dq.

Definition generateOutputExtraction : string :=
  join nl (outputExtractionEntry <$> nodesOfType NodeType.OUTPUT (p_nodes p)).

(** The template literal of [generateKotlinCode], its holes filled. *)
Definition kotlinTemplateLines (imports classBody generatedAt nodeConfigurations
    executionSequence outputExtraction : string) : list string :=
  [
    "package " +:+ targetPackage;
    "";
    imports;
    "";
    "/**";
    " * Generated RAG Pipeline: " +:+ p_name p;
    " * Nodes: " +:+ pretty (length (p_nodes p));
    " * Edges: " +:+ pretty (length (p_edges p));
    " * Generated at: " +:+ generatedAt;
    " */";
    "class GeneratedRagPipeline private constructor(private val application: Application) {";
    "    ";
    "    companion object {";
    "        @Volatile";
    "        private var INSTANCE: GeneratedRagPipeline? = null";
    "        ";
    "        fun getInstance(application: Application): GeneratedRagPipeline {";
    "            return INSTANCE ?: synchronized(this) {";
    "                INSTANCE ?: GeneratedRagPipeline(application).also { INSTANCE = it }";
    "            }";
    "        }";
    "    }";
    "    ";
    "    // Node execution variables";
    "    private val nodeOutputs = mutableMapOf<String, Any>()";
    "    private val nodeConfigs = mutableMapOf<String, Map<String, Any>>()";
    "    ";
    "    // RAG Components";
    "    private lateinit var ragPipeline: RagPipeline";
    "    ";
    "    init {";
    "        initializeComponents()";
    "        setupNodeConfigurations()";
    "    }";
    "    ";
    "    private fun initializeComponents() {";
    "        // Initialize RAG components";
    "        ragPipeline = RagPipeline.getInstance(application)";
    "    }";
    "    ";
    "    private fun setupNodeConfigurations() {";
    nodeConfigurations;
    "    }";
    "    ";
    classBody;
    "    ";
    "    /**";
    "     * Execute the complete pipeline";
    "     */";
    "    fun executePipeline(input: Map<String, Any>): Map<String, Any> {";
    "        try {";
    "            // Clear previous outputs";
    "            nodeOutputs.clear()";
    "            ";
    "            // Set initial inputs";
    "            input.forEach { (key, value) ->";
    "                nodeOutputs[key] = value";
    "            }";
    "            ";
    "            // Execute nodes in topological order";
    executionSequence;
    "            ";
    "            // Return final outputs";
    "            return extractFinalOutputs()";
    "            ";
    "        } catch (e: Exception) {";
    "            throw RuntimeException(" +:+ dq +:+ "Pipeline execution failed: ${e.message}" +:+ dq +:+ ", e)";
    "        }";
    "    }";
    "    ";
    "    private fun extractFinalOutputs(): Map<String, Any> {";
    "        val finalOutputs = mutableMapOf<String, Any>()";
    "        ";
    "        // Extract outputs from output nodes";
    outputExtraction;
    "        ";
    "        return finalOutputs";
    "    }";
    "}"].

Definition kotlinTemplate (imports classBody generatedAt nodeConfigurations
    executionSequence outputExtraction : string) : string :=
  lines (kotlinTemplateLines imports classBody generatedAt nodeConfigurations
           executionSequence outputExtraction).

(** [generateKotlinCode]: the holes are evaluated in the order the
    source evaluates them, [generatedAt] being the clock reading taken
    between the edge count and the node configurations. *)
Definition generateKotlinCode (generatedAt : string)
    (executionOrder : list string) : Exc string :=
  let imports := join nl requiredImports in
  classBody ← generateClassBody executionOrder;
  nodeConfigurations ← generateNodeConfigurations;
  executionSequence ← generateExecutionSequence executionOrder;
  Return (kotlinTemplate imports classBody generatedAt nodeConfigurations
            executionSequence generateOutputExtraction).

Definition gradleDependencies : list string :=
  ["implementation(" +:+ dq +:+ "com.google.ai.edge:local-agents-rag:1.0.0" +:+ dq +:+ ")";
   "implementation(" +:+ dq +:+ "androidx.lifecycle:lifecycle-viewmodel-ktx:2.7.0" +:+ dq +:+ ")"].

Definition generateBuildGradle : string :=
  lines [
    "dependencies {";
    "    " +:+ join (nl +:+ "    ") gradleDependencies;
    "}"].

Definition manyProcessingNodesWarning : string :=
  "Pipeline has many processing nodes - consider optimizing for performance".

Definition noConfigurationWarning (node : PipelineNode) : string :=
  "Node '" +:+ d_label (n_data node) +:+ "' has no configuration - using defaults".

Definition hasEmptyConfig (node : PipelineNode) : Prop :=
  length (d_config (n_data node)) = 0.

Definition getWarnings : list string :=
  (if decide (10 < length (nodesOfType NodeType.PROCESSING (p_nodes p)))
   then [manyProcessingNodesWarning] else [])
  ++ (noConfigurationWarning <$> filter hasEmptyConfig (p_nodes p)).

Definition circularDependencyMessage : string :=
  "Pipeline contains circular dependencies".

Definition failure (diagnostics : list string) : GeneratedCode :=
  {| success := false; kotlinCode := None; buildGradle := None;
     errors := diagnostics; warnings := [] |}.

(** The body of the [try] block of [generate]. *)
Definition generateBody (generatedAt : string) : Exc GeneratedCode :=
  let validationErrors := validatePipeline p in
  if decide (0 < length validationErrors) then Return (failure validationErrors)
  else
    match topologicalSort p with
    | None => Return (failure [circularDependencyMessage])
    | Some executionOrder =>
        code ← generateKotlinCode generatedAt executionOrder;
        let gradle := generateBuildGradle in
        Return {| success := true; kotlinCode := Some code;
                  buildGradle := Some gradle; errors := [];
                  warnings := getWarnings |}
    end.

(** [generate]: the [try] block and its [catch] clause. *)
Definition generate (generatedAt : string) : Exc GeneratedCode :=
  tryCatch (generateBody generatedAt)
    (λ message, Return (failure ["Code generation failed: " +:+ message])).

End Emitter.

(** [generateCodeFromPipeline]: the constructor builds the pipeline, then
    [generate] runs; an omitted name takes the default of the constructor. *)
Definition generateCodeFromPipeline (clock : Clock) (nodes : list FlowNode)
    (edges : list FlowEdge) (pipelineName : option string) : Exc GeneratedCode :=
  let name := orElse pipelineName "Generated Pipeline" in
  generate (buildPipeline clock nodes edges name) (clk_generatedAt clock).

(** ** The entry point on nodes as [Node[]] admits them *)

(** React Flow declares [data] of a [Node] as [Record<string, unknown>]:
    the caller may pass values of any shape, and the constructor reads them
    through casts. This module models the constructor on such nodes. *)
Module Untyped.

#[local] Set Warnings "-register-all".

(** A plain value of type [unknown]: [undefined] and what JSON holds. A
    number is held by its rendering. *)
Inductive Unknown : Type :=
| UUndefined
| UNull
| UBoolean (b : bool)
| UNumber (text : string)
| UString (s : string)
| UArray (items : list Unknown)
| UObject (entries : list (string * Unknown)).

(** [ToBoolean]: [undefined], [null], [false], [0], [NaN] and the empty
    string are falsy ([-0] renders as [0]). *)
Definition truthy (v : Unknown) : bool :=
  match v with
  | UUndefined | UNull => false
  | UBoolean b => b
  | UNumber text => negb (bool_decide (text = "0") || bool_decide (text = "NaN"))
  | UString s => negb (bool_decide (s = ""))
  | UArray _ | UObject _ => true
  end.

(** [v || dflt]. *)
Definition orUnknown (v dflt : Unknown) : Unknown :=
  if truthy v then v else dflt.

Definition isArray (v : Unknown) : bool :=
  match v with
  | UArray _ => true
  | _ => false
  end.

(** A handle of an [Edge]: [string | null | undefined]. *)
Inductive Handle : Type :=
| HString (s : string)
| HNull
| HUndefined.

(** [v === handle]. *)
Definition isHandle (handle : Handle) (v : Unknown) : bool :=
  match handle, v with
  | HString s, UString s' => bool_decide (s' = s)
  | HNull, UNull => true
  | HUndefined, UUndefined => true
  | _, _ => false
  end.

(** [handle || dflt]. *)
Definition handleOr (handle : Handle) (dflt : string) : string :=
  match handle with
  | HString s => if decide (s = "") then dflt else s
  | HNull | HUndefined => dflt
  end.

(** Messages of the [TypeError]s of the engine; their wording is the
    engine's own and no statement depends on it. *)
Definition nullPropertyMessage (property : string) : string :=
  "Cannot read properties of null (reading '" +:+ property +:+ "')".
Definition notAFunctionMessage (callee : string) : string :=
  callee +:+ " is not a function".

(** [v.key], for a key that is no index, not [length], and that no
    prototype defines ([id] and [dataType] below); the entries of an object
    have distinct keys. *)
Definition getProperty (key : string) (v : Unknown) : Exc Unknown :=
  match v with
  | UUndefined => Throw (undefinedPropertyMessage key)
  | UNull => Throw (nullPropertyMessage key)
  | UObject entries =>
      Return (match List.find (λ entry, bool_decide (entry.1 = key)) entries with
              | Some entry => entry.2
              | None => UUndefined
              end)
  | UBoolean _ | UNumber _ | UString _ | UArray _ => Return UUndefined
  end.

(** [ports.find(p => p.id === handle)] on an array. *)
Fixpoint findPort (ports : list Unknown) (handle : Handle) : Exc (option Unknown) :=
  match ports with
  | [] => Return None
  | port :: rest =>
      id ← getProperty "id" port;
      if isHandle handle id then Return (Some port) else findPort rest handle
  end.

(** [outputs.find(p => p.id === handle)] on any value: only an array has
    the method. *)
Definition find (outputs : Unknown) (handle : Handle) : Exc (option Unknown) :=
  match outputs with
  | UArray ports => findPort ports handle
  | UUndefined => Throw (undefinedPropertyMessage "find")
  | UNull => Throw (nullPropertyMessage "find")
  | UBoolean _ | UNumber _ | UString _ | UObject _ =>
      Throw (notAFunctionMessage "sourceNode.data.outputs.find")
  end.

(** [Node]: its id and the properties of [data] that the constructor
    reads, [UUndefined] when absent (also when [data] itself is). The
    configuration is held by its entries, as in [FlowNode]. *)
Record Node := {
  rn_id : string;
  rn_type : Unknown;
  rn_label : Unknown;
  rn_description : Unknown;
  rn_icon : Unknown;
  rn_inputs : Unknown;
  rn_outputs : Unknown;
  rn_config : option Config
}.

Record Edge := {
  re_id : string;
  re_source : string;
  re_target : string;
  re_sourceHandle : Handle;
  re_targetHandle : Handle
}.

(** What the casts of [buildPipeline] produce: a pipeline whose node data
    hold the values as given. *)
Record NodeData := {
  ud_id : string;
  ud_type : Unknown;
  ud_label : Unknown;
  ud_description : Unknown;
  ud_icon : Unknown;
  ud_inputs : Unknown;
  ud_outputs : Unknown;
  ud_config : Config
}.

Record PipelineNode := {
  un_id : string;
  un_type : Unknown;
  un_data : NodeData
}.

Record PipelineEdge := {
  ue_id : string;
  ue_source : string;
  ue_target : string;
  ue_sourceHandle : Handle;
  ue_targetHandle : Handle;
  ue_sourcePort : string;
  ue_targetPort : string;
  ue_dataType : Unknown;
  ue_validated : bool
}.

Record Pipeline := {
  up_id : string;
  up_name : string;
  up_description : string;
  up_version : string;
  up_nodes : list PipelineNode;
  up_edges : list PipelineEdge;
  up_createdAt : Z;
  up_updatedAt : Z;
  up_isValid : bool;
  up_validationErrors : list string
}.

Definition findNode (nodes : list PipelineNode) (id : string) : option PipelineNode :=
  List.find (λ n, bool_decide (un_id n = id)) nodes.

(** [inferDataType]: the optional chain stops at a missing source node;
    [find] is called on whatever [data.outputs] holds. *)
Definition inferDataType (edge : Edge) (nodes : list PipelineNode) : Exc Unknown :=
  match findNode nodes (re_source edge) with
  | None => Return (UString (dataTypeName TEXT))
  | Some sourceNode =>
      sourcePort ← find (ud_outputs (un_data sourceNode)) (re_sourceHandle edge);
      match sourcePort with
      | None => Return (UString (dataTypeName TEXT))
      | Some port =>
          dataType ← getProperty "dataType" port;
          Return (orUnknown dataType (UString (dataTypeName TEXT)))
      end
  end.

Definition buildNode (node : Node) : PipelineNode :=
  {| un_id := rn_id node;
     un_type := orUnknown (rn_type node) (UString NodeType.PROCESSING);
     un_data :=
       {| ud_id := rn_id node;
          ud_type := orUnknown (rn_type node) (UString NodeType.PROCESSING);
          ud_label := orUnknown (rn_label node) (UString "Unknown Node");
          ud_description := orUnknown (rn_description node) (UString "");
          ud_icon := orUnknown (rn_icon node) (UString "Circle");
          ud_inputs := orUnknown (rn_inputs node) (UArray []);
          ud_outputs := orUnknown (rn_outputs node) (UArray []);
          ud_config := orElse (rn_config node) [] |} |}.

Definition buildEdge (pipelineNodes : list PipelineNode) (edge : Edge)
    : Exc PipelineEdge :=
  dataType ← inferDataType edge pipelineNodes;
  Return {| ue_id := re_id edge;
            ue_source := re_source edge;
            ue_target := re_target edge;
            ue_sourceHandle := re_sourceHandle edge;
            ue_targetHandle := re_targetHandle edge;
            ue_sourcePort := handleOr (re_sourceHandle edge) "output";
            ue_targetPort := handleOr (re_targetHandle edge) "input";
            ue_dataType := dataType;
            ue_validated := true |}.

(** [buildPipeline]: the nodes are mapped first, then the edges, left to
    right; the first exception of [inferDataType] ends the call. *)
Definition buildPipeline (clock : Clock) (nodes : list Node) (edges : list Edge)
    (name : string) : Exc Pipeline :=
  let pipelineNodes := buildNode <$> nodes in
  pipelineEdges ← mapM (buildEdge pipelineNodes) edges;
  Return {| up_id := "pipeline-" +:+ pretty (clk_now clock);
            up_name := name;
            up_description :=
              "Generated pipeline with " +:+ pretty (length nodes) +:+ " nodes and "
              +:+ pretty (length edges) +:+ " connections";
            up_version := "1.0.0";
            up_nodes := pipelineNodes;
            up_edges := pipelineEdges;
            up_createdAt := clk_createdAt clock;
            up_updatedAt := clk_updatedAt clock;
            up_isValid := true;
            up_validationErrors := [] |}.

(** The constructor of [CodeGenerator]: the pipeline it stores. It has no
    [try]. *)
Definition CodeGenerator (clock : Clock) (nodes : list Node) (edges : list Edge)
    (pipelineName : option string) : Exc Pipeline :=
  buildPipeline clock nodes edges (orElse pipelineName "Generated Pipeline").

(** [generateCodeFromPipeline]: [new CodeGenerator(...)], then [generate] on
    the generator built. What [generate] does with data of other shapes
    than the declared ones is a parameter; on the declared shapes it is the
    [generate] modelled above. *)
Definition generateCodeFromPipeline (generate : Pipeline → Exc GeneratedCode)
    (clock : Clock) (nodes : list Node) (edges : list Edge)
    (pipelineName : option string) : Exc GeneratedCode :=
  generator ← CodeGenerator clock nodes edges pipelineName;
  generate generator.

End Untyped.

(** Nodes and edges of the declared shapes, as values of [Node[]] and
    [Edge[]]. *)
Definition untypedString (o : option string) : Untyped.Unknown :=
  match o with
  | Some s => Untyped.UString s
  | None => Untyped.UUndefined
  end.

Definition untypedPort (port : Port) : Untyped.Unknown :=
  Untyped.UObject
    [("id", Untyped.UString (port_id port));
     ("label", Untyped.UString (port_label port));
     ("dataType", Untyped.UString (dataTypeName (port_dataType port)));
     ("required", Untyped.UBoolean (port_required port))].

Definition untypedPorts (o : option (list Port)) : Untyped.Unknown :=
  match o with
  | Some ports => Untyped.UArray (untypedPort <$> ports)
  | None => Untyped.UUndefined
  end.

Definition untypedNode (node : FlowNode) : Untyped.Node :=
  {| Untyped.rn_id := fn_id node;
     Untyped.rn_type := untypedString (fn_type node);
     Untyped.rn_label := untypedString (fn_label node);
     Untyped.rn_description := untypedString (fn_description node);
     Untyped.rn_icon := untypedString (fn_icon node);
     Untyped.rn_inputs := untypedPorts (fn_inputs node);
     Untyped.rn_outputs := untypedPorts (fn_outputs node);
     Untyped.rn_config := fn_config node |}.

Definition untypedHandle (o : option string) : Untyped.Handle :=
  match o with
  | Some s => Untyped.HString s
  | None => Untyped.HNull
  end.

Definition untypedEdge (edge : FlowEdge) : Untyped.Edge :=
  {| Untyped.re_id := fe_id edge;
     Untyped.re_source := fe_source edge;
     Untyped.re_target := fe_target edge;
     Untyped.re_sourceHandle := untypedHandle (fe_sourceHandle edge);
     Untyped.re_targetHandle := untypedHandle (fe_targetHandle edge) |}.

(** The pipeline of the typed model as the constructor holds it. *)
Definition untypedPipelineNode (node : PipelineNode) : Untyped.PipelineNode :=
  {| Untyped.un_id := n_id node;
     Untyped.un_type := Untyped.UString (n_type node);
     Untyped.un_data :=
       {| Untyped.ud_id := d_id (n_data node);
          Untyped.ud_type := Untyped.UString (d_type (n_data node));
          Untyped.ud_label := Untyped.UString (d_label (n_data node));
          Untyped.ud_description := Untyped.UString (d_description (n_data node));
          Untyped.ud_icon := Untyped.UString (d_icon (n_data node));
          Untyped.ud_inputs := Untyped.UArray (untypedPort <$> d_inputs (n_data node));
          Untyped.ud_outputs := Untyped.UArray (untypedPort <$> d_outputs (n_data node));
          Untyped.ud_config := d_config (n_data node) |} |}.

Definition untypedPipelineEdge (edge : PipelineEdge) : Untyped.PipelineEdge :=
  {| Untyped.ue_id := e_id edge;
     Untyped.ue_source := e_source edge;
     Untyped.ue_target := e_target edge;
     Untyped.ue_sourceHandle := untypedHandle (e_sourceHandle edge);
     Untyped.ue_targetHandle := untypedHandle (e_targetHandle edge);
     Untyped.ue_sourcePort := e_sourcePort edge;
     Untyped.ue_targetPort := e_targetPort edge;
     Untyped.ue_dataType := Untyped.UString (dataTypeName (e_dataType edge));
     Untyped.ue_validated := e_validated edge |}.

Definition untypedPipeline (p : Pipeline) : Untyped.Pipeline :=
  {| Untyped.up_id := p_id p;
     Untyped.up_name := p_name p;
     Untyped.up_description := p_description p;
     Untyped.up_version := p_version p;
     Untyped.up_nodes := untypedPipelineNode <$> p_nodes p;
     Untyped.up_edges := untypedPipelineEdge <$> p_edges p;
     Untyped.up_createdAt := p_createdAt p;
     Untyped.up_updatedAt := p_updatedAt p;
     Untyped.up_isValid := p_isValid p;
     Untyped.up_validationErrors := p_validationErrors p |}.

(** ** The canvas ([components/PipelineCanvas.tsx]) *)

(** [compatibilityRules] of [validateDataTypeCompatibility], the check the
    canvas runs before it creates an edge. *)
Definition canvasCompatibilityRules (sourceType : DataType) : list DataType :=
  match sourceType with
  | TEXT => [CHUNKS]
  | PDF => [TEXT]
  | CHUNKS => [EMBEDDINGS]
  | EMBEDDINGS => [JSON]
  | JSON => [TEXT]
  | BOOLEAN => [JSON]
  | NUMBER => [JSON; TEXT]
  end.

Definition validateDataTypeCompatibility (sourceType targetType : DataType) : bool :=
  if decide (sourceType = targetType) then true
  else bool_decide (targetType ∈ canvasCompatibilityRules sourceType).

(** React Flow [Connection]: what the user has just drawn. *)
Record Connection := {
  c_source : string;
  c_target : string;
  c_sourceHandle : option string;
  c_targetHandle : option string
}.

(** The four ways [onConnect] ends: the two early returns that only log,
    the refusal that marks the target node with an error message, and the
    edge handed to [addEdge]. *)
Inductive ConnectResult : Type :=
| NodeNotFound
| PortNotFound
| Incompatible (targetId errorMessage : string)
| Connected (newEdge : PipelineEdge).

(** [onConnect] over the nodes on the canvas; [now] is the reading of
    [Date.now()]. The stroke and arrow colours of the new edge are display
    attributes that the generator never reads and the edge record does not
    carry; the timer that clears the error mark is outside this function's
    result. *)
Definition onConnect (now : Z) (nodes : list PipelineNode) (params : Connection)
    : ConnectResult :=
  match findNode nodes (c_source params), findNode nodes (c_target params) with
  | Some sourceNode, Some targetNode =>
      match findPort (d_outputs (n_data sourceNode)) (c_sourceHandle params),
            findPort (d_inputs (n_data targetNode)) (c_targetHandle params) with
      | Some sourcePort, Some targetPort =>
          if validateDataTypeCompatibility (port_dataType sourcePort)
               (port_dataType targetPort)
          then
            Connected
              {| e_id := "edge-" +:+ c_source params +:+ "-" +:+ c_target params
                         +:+ "-" +:+ pretty now;
                 e_source := c_source params;
                 e_target := c_target params;
                 e_sourceHandle := c_sourceHandle params;
                 e_targetHandle := c_targetHandle params;
                 e_sourcePort := orString (c_sourceHandle params) "";
                 e_targetPort := orString (c_targetHandle params) "";
                 e_dataType := port_dataType sourcePort;
                 e_validated := true |}
          else
            Incompatible (n_id targetNode)
              ("Cannot connect " +:+ dataTypeName (port_dataType sourcePort)
               +:+ " to " +:+ dataTypeName (port_dataType targetPort))
      | _, _ => PortNotFound
      end
  | _, _ => NodeNotFound
  end.

(** A node and an edge of the canvas as [generateCodeFromPipeline] receives
    them: the same objects, read through React Flow's [Node] and [Edge]. *)
Definition flowNodeOf (node : PipelineNode) : FlowNode :=
  {| fn_id := n_id node;
     fn_type := Some (d_type (n_data node));
     fn_label := Some (d_label (n_data node));
     fn_description := Some (d_description (n_data node));
     fn_icon := Some (d_icon (n_data node));
     fn_inputs := Some (d_inputs (n_data node));
     fn_outputs := Some (d_outputs (n_data node));
     fn_config := Some (d_config (n_data node)) |}.

Definition flowEdgeOf (edge : PipelineEdge) : FlowEdge :=
  {| fe_id := e_id edge;
     fe_source := e_source edge;
     fe_target := e_target edge;
     fe_sourceHandle := e_sourceHandle edge;
     fe_targetHandle := e_targetHandle edge |}.

(** ** The application shell ([App.tsx]) *)

(** The character U+274C that opens the failure report. It is a single
    code unit above 255 and is held here as the three bytes of its UTF-8
    encoding; no statement depends on it. *)
Definition crossMark : string := "❌".

(** The template literal [errorCode] of [handleGenerate]. *)
Definition errorCode (nodes : list FlowNode) (edges : list FlowEdge)
    (codeResult : GeneratedCode) : string :=
  lines [
    "/*";
    crossMark +:+ " CODE GENERATION FAILED";
    "";
    "Errors:";
    join nl ((λ err, "- " +:+ err) <$> errors codeResult);
    "";
    "Warnings:";
    join nl ((λ warn, "- " +:+ warn) <$> warnings codeResult);
    "";
    "Please fix the pipeline structure and try again.";
    "*/";
    "";
    "// Pipeline Analysis Results:";
    "// Nodes: " +:+ pretty (length nodes);
    "// Edges: " +:+ pretty (length edges);
    "// Validation Status: " +:+ (if success codeResult then "PASSED" else "FAILED");
    "";
    orString (kotlinCode codeResult) "// No code generated due to errors"].

(** [handleGenerate]: the text handed to [setGeneratedCode]; the code
    dialog is opened in both branches, and what is written to the console
    is not part of the result. [currentPipeline] is the name held by the
    component. *)
Definition handleGenerate (clock : Clock) (currentPipeline : string)
    (nodes : list FlowNode) (edges : list FlowEdge) : Exc string :=
  codeResult ← generateCodeFromPipeline clock nodes edges (Some currentPipeline);
  if success codeResult && bool_decide (orString (kotlinCode codeResult) "" ≠ "")
  then Return (orString (kotlinCode codeResult) "")
  else Return (errorCode nodes edges codeResult).

(** ** Vocabulary of the specification *)

(** The declared node ids, in declaration order. *)
Definition nodeIds (p : Pipeline) : list string := n_id <$> p_nodes p.

(** [x] stands at an earlier position of [l] than [y]. *)
Definition precedes (x y : string) (l : list string) : Prop :=
  ∃ i j, l !! i = Some x ∧ l !! j = Some y ∧ i < j.

Section Graph.
Variable edges : list PipelineEdge.

(** The graph induced by the edges: [feeds x y] when some edge goes from
    [x] to [y]. *)
Definition feeds (x y : string) : Prop :=
  ∃ edge, edge ∈ edges ∧ e_source edge = x ∧ e_target edge = y.

Definition acyclic : Prop := ∀ x, ¬ tc feeds x x.
Definition cyclic : Prop := ∃ x, tc feeds x x.

(** What holds of the scheduler state between two calls of [visit]. *)
Record sortInvariant (st : SortState) : Prop := {
  inv_result : ∀ x, x ∈ visited st ↔ x ∈ result st;
  inv_nodup : NoDup (result st);
  inv_disjoint : visited st ## visiting st;
  inv_order : ∀ edge, edge ∈ edges → e_target edge ∈ visited st →
              precedes (e_source edge) (e_target edge) (result st)
}.

(** What a finished run over the ids [origins] guarantees. *)
Definition visitOutcomeOk (origins : list string) (st : SortState)
    (o : Outcome (bool * SortState)) : Prop :=
  match o with
  | OutOfFuel => False
  | Finished (true, st') =>
      sortInvariant st' ∧ visiting st' = visiting st
      ∧ (∀ x, x ∈ origins → x ∈ visited st')
      ∧ ∃ new, result st' = result st ++ new
               ∧ ∀ x, x ∈ new → ∃ y, y ∈ origins ∧ rtc feeds x y
  | Finished (false, _) => cyclic
  end.
End Graph.


(** Every edge goes from a declared node to a declared node. *)
Definition edgesDeclared (p : Pipeline) : Prop :=
  ∀ edge, edge ∈ p_edges p →
    e_source edge ∈ nodeIds p ∧ e_target edge ∈ nodeIds p.

(** [x] occurs inside [s]. *)
Definition occursIn (x s : string) : Prop := ∃ pre post, s = pre +:+ x +:+ post.


(** The four ways [generate] ends. *)
Inductive GenerateCase (p : Pipeline) (generatedAt : string) : GeneratedCode → Prop :=
| RejectedByValidator :
    validatePipeline p ≠ [] →
    GenerateCase p generatedAt (failure (validatePipeline p))
| RejectedByScheduler :
    validatePipeline p = [] → topologicalSort p = None →
    GenerateCase p generatedAt (failure [circularDependencyMessage])
| EmissionThrew order message :
    validatePipeline p = [] → topologicalSort p = Some order →
    generateKotlinCode p generatedAt order = Throw message →
    generateBody p generatedAt = Throw message →
    GenerateCase p generatedAt (failure ["Code generation failed: " +:+ message])
| Emitted order code :
    validatePipeline p = [] → topologicalSort p = Some order →
    generateKotlinCode p generatedAt order = Return code →
    GenerateCase p generatedAt
      {| success := true; kotlinCode := Some code;
         buildGradle := Some generateBuildGradle; errors := [];
         warnings := getWarnings p |}.

(** Position of [x] in [order], or its length when absent. *)
Fixpoint rankIn (order : list string) (x : string) : nat :=
  match order with
  | [] => 0
  | y :: rest => if decide (y = x) then 0 else S (rankIn rest x)
  end.

(** ** Vocabulary of further properties *)

(** The validator has nothing to say about an edge: both ends resolve, and
    the two port types are compatible whenever both ports resolve. *)
Definition edgeAccepted (nodes : list PipelineNode) (edge : PipelineEdge) : Prop :=
  ∃ sourceNode targetNode,
    findNode nodes (e_source edge) = Some sourceNode
    ∧ findNode nodes (e_target edge) = Some targetNode
    ∧ ∀ sourcePort targetPort,
        findPort (d_outputs (n_data sourceNode)) (e_sourceHandle edge) = Some sourcePort →
        findPort (d_inputs (n_data targetNode)) (e_targetHandle edge) = Some targetPort →
        isDataTypeCompatible (port_dataType sourcePort) (port_dataType targetPort) = true.

(** The diagnostic of [validatePipeline] for an edge given as drawn. *)
Definition invalidFlowConnectionMessage (edge : FlowEdge) : string :=
  "Invalid connection: " +:+ fe_source edge +:+ " -> " +:+ fe_target edge.

(** [JSON.stringify] returns on the value, or the value needs no
    [JSON.stringify]. *)
Definition rendersValue (value : Js.Value) : bool :=
  match value with
  | VOther (Throw _) => false
  | _ => true
  end.

(** Every value of the configuration can be written into [mapOf(...)]. *)
Definition renderable (config : Config) : Prop :=
  Forall (λ entry, rendersValue entry.2 = true) config.

(** The key under which the generated code stores an output of a node. *)
Definition outputKey (nodeId portId : string) : string :=
  nodeId +:+ "_" +:+ portId.

(** Two ids agree wherever either has a letter or a digit, and have the
    same length. *)
Fixpoint sameAlphanumerics (a b : string) : Prop :=
  match a, b with
  | EmptyString, EmptyString => True
  | String x a', String y b' =>
      (x = y ∨ (isAlnum x = false ∧ isAlnum y = false)) ∧ sameAlphanumerics a' b'
  | _, _ => False
  end.

(** All characters of [s] satisfy [test]. *)
Fixpoint allChars (test : ascii → bool) (s : string) : bool :=
  match s with
  | EmptyString => true
  | String c rest => test c && allChars test rest
  end.

(** ** Sample inputs *)

Module Sample.

Definition clock : Clock :=
  {| clk_now := 1750303841720; clk_createdAt := 1750303841720;
     clk_updatedAt := 1750303841720;
     clk_generatedAt := "2025-06-19T03:30:41.720Z" |}.

Definition laterClock : Clock :=
  {| clk_now := 1750303999001; clk_createdAt := 1750303999001;
     clk_updatedAt := 1750303999002;
     clk_generatedAt := "2025-06-19T03:33:19.004Z" |}.

Definition port (id : string) (dataType : DataType) : Port :=
  {| port_id := id; port_label := id; port_dataType := dataType;
     port_required := true |}.

Definition node (id type label : string) (inputs outputs : list Port) : FlowNode :=
  {| fn_id := id; fn_type := Some type; fn_label := Some label;
     fn_description := None; fn_icon := None; fn_inputs := Some inputs;
     fn_outputs := Some outputs; fn_config := None |}.

Definition edge (id source target : string)
    (sourceHandle targetHandle : option string) : FlowEdge :=
  {| fe_id := id; fe_source := source; fe_target := target;
     fe_sourceHandle := sourceHandle; fe_targetHandle := targetHandle |}.

Definition build (nodes : list FlowNode) (edges : list FlowEdge) : Pipeline :=
  buildPipeline clock nodes edges "Sample".

Definition textInput : FlowNode :=
  node "input1" "input" "Text Input" [] [port "text" TEXT].
Definition textOutput : FlowNode :=
  node "output1" "output" "Text Output" [port "text" TEXT] [].
Definition pdfInput : FlowNode :=
  node "input1" "input" "PDF Input" [] [port "pdf" PDF].
Definition numberOutput : FlowNode :=
  node "output1" "output" "Number Output" [port "number" NUMBER] [].

(** One text input wired to one text output. *)
Definition validNodes : list FlowNode := [textInput; textOutput].
Definition validEdges : list FlowEdge :=
  [edge "edge1" "input1" "output1" (Some "text") (Some "text")].
Definition valid : Pipeline := build validNodes validEdges.

(** A PDF output port wired to a number input port. *)
Definition incompatible : Pipeline :=
  build [pdfInput; numberOutput]
    [edge "edge1" "input1" "output1" (Some "pdf") (Some "number")].

(** The edge names an output port that [input1] does not have. *)
Definition danglingPort : Pipeline :=
  build validNodes [edge "edge1" "input1" "output1" (Some "summary") (Some "text")].

(** The edge starts at a node that is not declared. *)
Definition danglingNode : Pipeline :=
  build validNodes [edge "edge1" "ghost" "output1" (Some "text") (Some "text")].

(** Two processing nodes feeding each other. *)
Definition circular : Pipeline :=
  build [node "node1" "processing" "Node 1" [] [];
         node "node2" "processing" "Node 2" [] []]
    [edge "edge1" "node1" "node2" None None;
     edge "edge2" "node2" "node1" None None].

(** An input and an output feeding each other. *)
Definition circularValid : Pipeline :=
  build validNodes
    [edge "edge1" "input1" "output1" None None;
     edge "edge2" "output1" "input1" None None].

(** A cycle between two ids that no node declares. *)
Definition undeclaredCycle : Pipeline :=
  build validNodes
    [edge "edge1" "ghost1" "ghost2" None None;
     edge "edge2" "ghost2" "ghost1" None None].

(** The input node carries a configuration value that refers to itself,
    on which [JSON.stringify] throws. *)
Definition selfReferencing : Js.Value :=
  VOther (Throw "Converting circular structure to JSON").
Definition cyclicConfigNodes : list FlowNode :=
  [{| fn_id := "input1"; fn_type := Some "input"; fn_label := Some "Text Input";
      fn_description := None; fn_icon := None; fn_inputs := Some [];
      fn_outputs := Some [port "text" TEXT];
      fn_config := Some [("self", selfReferencing)] |};
   textOutput].


(** Three nodes declared a, b, c; c feeds a. *)
Definition tieBreak : Pipeline :=
  build [node "a" "processing" "A" [] []; node "b" "processing" "B" [] [];
         node "c" "processing" "C" [] []]
    [edge "edge1" "c" "a" None None].

(** Eleven processing steps between the input and the output; only the
    first step has a configuration. *)
Definition processingStep (k : string) (config : option Config) : FlowNode :=
  {| fn_id := "step" +:+ k; fn_type := Some "processing";
     fn_label := Some ("Step " +:+ k); fn_description := None; fn_icon := None;
     fn_inputs := Some []; fn_outputs := Some []; fn_config := config |}.
Definition manyProcessing : Pipeline :=
  build (textInput
         :: processingStep "1" (Some [("chunkSize", VNumber "512")])
         :: ((λ k, processingStep k None)
               <$> ["2"; "3"; "4"; "5"; "6"; "7"; "8"; "9"; "10"; "11"])
         ++ [textOutput])
    validEdges.

(** The nodes of [valid], but [data.outputs] of the input node is the
    number 7. *)
Definition outputsNotArray : list Untyped.Node :=
  [{| Untyped.rn_id := "input1";
      Untyped.rn_type := Untyped.UString "input";
      Untyped.rn_label := Untyped.UString "Text Input";
      Untyped.rn_description := Untyped.UUndefined;
      Untyped.rn_icon := Untyped.UUndefined;
      Untyped.rn_inputs := Untyped.UArray [];
      Untyped.rn_outputs := Untyped.UNumber "7";
      Untyped.rn_config := None |};
   untypedNode textOutput].

End Sample.

(** * Proofs *)

(** ** Scheduler *)

Section SchedulerProofs.
Variable edges : list PipelineEdge.
Variable universe : gset string.
Hypothesis sources_in_universe : ∀ edge, edge ∈ edges → e_source edge ∈ universe.

Local Abbreviation E := (feeds edges).
Local Abbreviation Inv := (sortInvariant edges).
Local Abbreviation Ok := (visitOutcomeOk edges).

Lemma precedes_app_l x y l k : precedes x y l → precedes x y (l ++ k).
Proof.
  intros (i & j & Hi & Hj & Hlt). exists i, j.
  split_and!; [by apply lookup_app_l_Some..|done].
Qed.

Lemma precedes_snoc x y l : x ∈ l → precedes x y (l ++ [y]).
Proof.
  intros (i & Hi)%list_elem_of_lookup. exists i, (length l).
  split_and!.
  - by apply lookup_app_l_Some.
  - rewrite lookup_app_r by lia. by rewrite Nat.sub_diag.
  - by eapply lookup_lt_Some.
Qed.

Lemma dependencies_spec nodeId x :
  x ∈ dependencies edges nodeId ↔ E x nodeId.
Proof.
  unfold dependencies, feeds. rewrite list_elem_of_fmap. split.
  - intros (e & -> & [He Hin]%list_elem_of_filter). eauto.
  - intros (e & Hin & <- & Ht). exists e. split; [done|].
    apply list_elem_of_filter. done.
Qed.

Lemma visitEach_ok v V :
  (∀ n st, Inv st → visiting st = V → n ∈ universe →
           (∀ w, w ∈ V → tc E n w) → Ok [n] st (v n st)) →
  ∀ ids st, Inv st → visiting st = V →
    (∀ d, d ∈ ids → d ∈ universe ∧ ∀ w, w ∈ V → tc E d w) →
    Ok ids st (visitEach v ids st).
Proof.
  intros Hv ids. induction ids as [|d ids IH]; intros st HI HV Hids; simpl.
  - split_and!; [done|done|set_solver|]. exists []. rewrite app_nil_r. set_solver.
  - destruct (Hids d) as [Hd Hanc]; [set_solver|].
    specialize (Hv d st HI HV Hd Hanc).
    destruct (v d st) as [|[[] st1]]; simpl in *; [done| |done].
    destruct Hv as (HI1 & HV1 & Hvis1 & new1 & Hres1 & Hnew1).
    ospecialize (IH st1 HI1 _ _); [congruence| |].
    { intros d' Hd'. apply Hids. set_solver. }
    destruct (visitEach v ids st1) as [|[[] st2]]; simpl in *; [done| |done].
    destruct IH as (HI2 & HV2 & Hvis2 & new2 & Hres2 & Hnew2).
    split_and!; [done|congruence| |].
    + intros x [->|Hx]%elem_of_cons; [|by apply Hvis2].
      apply (inv_result _ _ HI2). rewrite Hres2. apply elem_of_app. left.
      apply (inv_result _ _ HI1). apply Hvis1. set_solver.
    + exists (new1 ++ new2). split; [by rewrite Hres2, Hres1, app_assoc|].
      intros x [Hx|Hx]%elem_of_app.
      * destruct (Hnew1 x Hx) as (y & Hy & Hr). exists y. set_solver.
      * destruct (Hnew2 x Hx) as (y & Hy & Hr). exists y. set_solver.
Qed.

Lemma visit_ok fuel : ∀ n st,
  Inv st → visiting st ⊆ universe → size (universe ∖ visiting st) < fuel →
  n ∈ universe → (∀ w, w ∈ visiting st → tc E n w) →
  Ok [n] st (visit edges fuel n st).
Proof.
  induction fuel as [|fuel IH]; intros n st HI Hsub Hsize Hn Hanc; [lia|].
  simpl. destruct (decide (n ∈ visiting st)) as [Hving|Hving]; simpl.
  { exists n. by apply Hanc. }
  destruct (decide (n ∈ visited st)) as [Hved|Hved]; simpl.
  { split_and!; [done|done|set_solver|]. exists []. rewrite app_nil_r. set_solver. }
  set (st1 := {| visited := visited st; visiting := {[n]} ∪ visiting st; result := result st |}).
  assert (HI1 : Inv st1).
  { destruct HI. split; simpl; [done|done|set_solver|done]. }
  opose proof (visitEach_ok (visit edges fuel) (visiting st1) _) as Hloop.
  { intros m st' HI' HV' Hm Hanc'. apply IH; [done| | |done|].
    - rewrite HV'. simpl. clear -Hsub Hn. set_solver.
    - rewrite HV'. simpl.
      assert (universe ∖ ({[n]} ∪ visiting st) ⊂ universe ∖ visiting st) as Hlt%subset_size by (clear -Hn Hving; set_solver).
      lia.
    - intros w Hw. apply Hanc'. by rewrite <- HV'. }
  ospecialize (Hloop (dependencies edges n) st1 HI1 eq_refl _).
  { intros d Hd%dependencies_spec. split.
    - destruct Hd as (e & He & <- & _). by apply sources_in_universe.
    - simpl. intros w [->%elem_of_singleton|Hw]%elem_of_union.
      + by apply tc_once.
      + eapply tc_l; [done|]. by apply Hanc. }
  destruct (visitEach (visit edges fuel) (dependencies edges n) st1) as [|[[] st2]]; simpl in *; [done| |done].
  destruct Hloop as (HI2 & HV2 & Hvis2 & new & Hres2 & Hnew).
  assert (Hfresh : n ∉ visited st2).
  { pose proof (inv_disjoint _ _ HI2) as Hdis. rewrite HV2 in Hdis. clear -Hdis. set_solver. }
  assert (Hfresh' : n ∉ result st2) by (by rewrite <- (inv_result _ _ HI2)).
  split_and!.
  - split; simpl.
    + intros x. rewrite elem_of_union, elem_of_app, elem_of_singleton, list_elem_of_singleton.
      rewrite (inv_result _ _ HI2). tauto.
    + apply NoDup_app. split_and!; [by apply (inv_nodup _ _ HI2)| |apply NoDup_singleton].
      intros x Hx ->%list_elem_of_singleton. done.
    + pose proof (inv_disjoint _ _ HI2) as Hdis. rewrite HV2 in Hdis |- *. clear -Hdis Hving. set_solver.
    + intros e He [Ht%elem_of_singleton|Ht]%elem_of_union.
      * rewrite Ht. apply precedes_snoc. apply (inv_result _ _ HI2), Hvis2.
        apply dependencies_spec. exists e. done.
      * apply precedes_app_l. by apply (inv_order _ _ HI2).
  - rewrite HV2. clear -Hving. set_solver.
  - clear. set_solver.
  - exists (new ++ [n]). split; [by rewrite Hres2, app_assoc|].
    intros x [Hx| ->%list_elem_of_singleton]%elem_of_app.
    + destruct (Hnew x Hx) as (y & Hy%dependencies_spec & Hr). exists n. split; [set_solver|].
      eapply rtc_r; done.
    + exists n. split; [set_solver|done].
Qed.
End SchedulerProofs.

Lemma size_list_to_set_le (l : list string) :
  (size (list_to_set l : gset string) ≤ length l)%nat.
Proof.
  induction l as [|x l IH].
  - rewrite list_to_set_nil, size_empty. done.
  - rewrite list_to_set_cons, size_union_alt, size_singleton. simpl.
    assert (size (list_to_set l ∖ {[x]} : gset string) ≤ size (list_to_set l : gset string))%nat.
    { apply subseteq_size. set_solver. }
    lia.
Qed.

Lemma tc_feeds_target edges x y :
  tc (feeds edges) x y → ∃ edge, edge ∈ edges ∧ e_target edge = y.
Proof.
  induction 1 as [x y (e & He & _ & Ht)|]; eauto.
Qed.

Lemma rtc_feeds_source edges x y :
  rtc (feeds edges) x y → x = y ∨ ∃ edge, edge ∈ edges ∧ e_source edge = x.
Proof.
  destruct 1 as [|x y z (e & He & Hs & _)]; eauto.
Qed.

Lemma precedes_irrefl x l : NoDup l → ¬ precedes x x l.
Proof.
  intros Hnd (i & j & Hi & Hj & Hlt).
  pose proof (NoDup_lookup _ _ _ _ Hnd Hi Hj). lia.
Qed.

Lemma precedes_trans x y z l :
  NoDup l → precedes x y l → precedes y z l → precedes x z l.
Proof.
  intros Hnd (i & j & Hi & Hj & Hlt) (j' & k & Hj' & Hk & Hlt').
  pose proof (NoDup_lookup _ _ _ _ Hnd Hj Hj'). subst j'.
  exists i, k. split_and!; [done..|lia].
Qed.

Lemma precedes_elem_l x y l : precedes x y l → x ∈ l.
Proof. intros (i & j & Hi & _). by eapply list_elem_of_lookup_2. Qed.

Lemma precedes_of_path edges st x y :
  sortInvariant edges st → tc (feeds edges) x y → y ∈ visited st →
  precedes x y (result st).
Proof.
  intros HI Hp. induction Hp as [x y (e & He & <- & <-)|x y z (e & He & <- & <-) Hp IH]; intros Hy.
  - by apply (inv_order _ _ HI).
  - specialize (IH Hy).
    eapply precedes_trans; [by apply (inv_nodup _ _ HI)| |done].
    apply (inv_order _ _ HI); [done|].
    apply (inv_result _ _ HI). by eapply precedes_elem_l.
Qed.

Lemma initialSortState_invariant edges : sortInvariant edges initialSortState.
Proof.
  split; simpl; [set_solver|constructor|set_solver|set_solver].
Qed.

(** The loop of [topologicalSort] over any part of the declared nodes,
    started outside of any call of [visit]. *)
Lemma scheduleLoop_ok (p : Pipeline) (ids : list string) (st : SortState) :
  (∀ d, d ∈ ids → d ∈ nodeIds p) →
  sortInvariant (p_edges p) st → visiting st = ∅ →
  visitOutcomeOk (p_edges p) ids st
    (visitEach (visit (p_edges p) (sortFuel p)) ids st).
Proof.
  intros Hdecl HI Hvisiting.
  set (universe := list_to_set (nodeIds p ++ (e_source <$> p_edges p)) : gset string).
  assert (Hsize : size universe < sortFuel p).
  { unfold universe, sortFuel.
    pose proof (size_list_to_set_le (nodeIds p ++ (e_source <$> p_edges p))) as Hle.
    rewrite length_app in Hle. unfold nodeIds in *. rewrite !length_fmap in Hle. lia. }
  assert (Hsrc : ∀ edge, edge ∈ p_edges p → e_source edge ∈ universe).
  { intros e He. unfold universe. rewrite elem_of_list_to_set, elem_of_app.
    right. by apply list_elem_of_fmap_2. }
  assert (Hids : ∀ d, d ∈ nodeIds p → d ∈ universe).
  { intros d Hd. unfold universe. rewrite elem_of_list_to_set, elem_of_app. by left. }
  clearbody universe.
  apply (visitEach_ok (p_edges p) universe Hsrc) with (V := ∅).
  - intros n st' HI' HV Hn Hanc.
    apply visit_ok with (universe := universe); [done|done| | |done|].
    + rewrite HV. apply empty_subseteq.
    + rewrite HV. by rewrite difference_empty_L.
    + rewrite HV. intros w Hw. by apply not_elem_of_empty in Hw.
  - done.
  - done.
  - intros d Hd. split; [by apply Hids, Hdecl|].
    intros w Hw. by apply not_elem_of_empty in Hw.
Qed.

(** The run of [topologicalSort]: the loop over all declared nodes. *)
Lemma schedule_ok (p : Pipeline) :
  visitOutcomeOk (p_edges p) (nodeIds p) initialSortState
    (visitEach (visit (p_edges p) (sortFuel p)) (nodeIds p) initialSortState).
Proof.
  apply scheduleLoop_ok; [done|apply initialSortState_invariant|done].
Qed.

Lemma topologicalSortFuel_finishes (p : Pipeline) :
  ∃ r, topologicalSortFuel (sortFuel p) p = Finished r.
Proof.
  pose proof (schedule_ok p) as H. unfold topologicalSortFuel. fold (nodeIds p).
  destruct (visitEach _ _ _) as [|[[] st]]; simpl in H; [done|eauto..].
Qed.

(** A larger recursion budget changes nothing once a run finishes, so the
    answer of [topologicalSort] is that of the unbounded recursion. *)
Lemma visitEach_mono v v' :
  (∀ n st r, v n st = Finished r → v' n st = Finished r) →
  ∀ ids st r, visitEach v ids st = Finished r → visitEach v' ids st = Finished r.
Proof.
  intros Hv ids. induction ids as [|x ids IH]; intros st r H; simpl in *; [done|].
  destruct (v x st) as [|[b st1]] eqn:Hx; [done|].
  rewrite (Hv _ _ _ Hx). destruct b; [by apply IH|done].
Qed.

Lemma visit_fuel_mono edges fuel :
  ∀ n st r, visit edges fuel n st = Finished r →
            visit edges (S fuel) n st = Finished r.
Proof.
  induction fuel as [|fuel IH]; intros n st r H; [done|].
  change (visit edges (S (S fuel)) n st) with
    (if decide (n ∈ visiting st) then Finished (false, st)
     else if decide (n ∈ visited st) then Finished (true, st)
     else match visitEach (visit edges (S fuel)) (dependencies edges n)
                  {| visited := visited st; visiting := {[n]} ∪ visiting st;
                     result := result st |} with
          | Finished (true, st2) =>
              Finished (true, {| visited := {[n]} ∪ visited st2;
                                 visiting := visiting st2 ∖ {[n]};
                                 result := result st2 ++ [n] |})
          | other => other
          end).
  simpl in H.
  destruct (decide (n ∈ visiting st)); [done|].
  destruct (decide (n ∈ visited st)); [done|].
  destruct (visitEach (visit edges fuel) _ _) as [|r'] eqn:Hloop; [done|].
  by rewrite (visitEach_mono _ _ IH _ _ _ Hloop).
Qed.

Lemma topologicalSortFuel_mono (p : Pipeline) (extra : nat) :
  topologicalSortFuel (sortFuel p + extra) p = topologicalSortFuel (sortFuel p) p.
Proof.
  unfold topologicalSortFuel. fold (nodeIds p).
  pose proof (schedule_ok p) as Hok.
  destruct (visitEach (visit (p_edges p) (sortFuel p)) _ _) as [|r] eqn:Hrun; [done|].
  clear Hok.
  assert (Hmore : visitEach (visit (p_edges p) (sortFuel p + extra)) (nodeIds p)
                    initialSortState = Finished r); [|by rewrite Hmore].
  induction extra as [|extra IH].
  - by rewrite Nat.add_0_r.
  - rewrite Nat.add_succ_r.
    by apply (visitEach_mono _ _ (visit_fuel_mono (p_edges p) (sortFuel p + extra))).
Qed.

(** If the scheduler reports a cycle there is one. *)
Lemma topologicalSort_None_cyclic (p : Pipeline) :
  topologicalSort p = None → cyclic (p_edges p).
Proof.
  pose proof (schedule_ok p) as H. unfold topologicalSort, topologicalSortFuel. fold (nodeIds p).
  destruct (visitEach _ _ _) as [|[[] st]]; simpl in H; [done| |done].
  discriminate.
Qed.

(** What an order returned by the scheduler satisfies, whatever the graph. *)
Lemma topologicalSort_Some (p : Pipeline) order :
  topologicalSort p = Some order →
  ∃ st, sortInvariant (p_edges p) st ∧ result st = order
        ∧ (∀ x, x ∈ nodeIds p → x ∈ order)
        ∧ (∀ x, x ∈ order → ∃ y, y ∈ nodeIds p ∧ rtc (feeds (p_edges p)) x y).
Proof.
  pose proof (schedule_ok p) as H. unfold topologicalSort, topologicalSortFuel. fold (nodeIds p).
  destruct (visitEach _ _ _) as [|[[] st]]; simpl in H; [done| |done].
  intros [= <-]. destruct H as (HI & _ & Hvis & new & Hres & Hnew).
  exists st. split_and!; [done|done| |].
  - intros x Hx. apply (inv_result _ _ HI). by apply Hvis.
  - simpl in Hres. subst new. done.
Qed.

(** Helpers to settle the hypotheses on concrete pipelines. *)
Lemma acyclic_ranked edges (rank : string → nat) :
  Forall (λ edge, rank (e_source edge) < rank (e_target edge)) edges →
  acyclic edges.
Proof.
  intros Hrank x Hx.
  assert (Hlt : ∀ a b, tc (feeds edges) a b → rank a < rank b).
  { assert (Hstep : ∀ a b, feeds edges a b → rank a < rank b).
    { intros a b (e & He & <- & <-). by apply (proj1 (Forall_forall _ _) Hrank). }
    induction 1 as [a b Hab|a b c Hab _ IH]; [by apply Hstep|].
    apply Hstep in Hab. lia. }
  apply Hlt in Hx. lia.
Qed.

Lemma edgesDeclared_Forall (p : Pipeline) :
  Forall (λ edge, e_source edge ∈ nodeIds p ∧ e_target edge ∈ nodeIds p) (p_edges p) →
  edgesDeclared p.
Proof. intros H edge Hin. by apply (proj1 (Forall_forall _ _) H). Qed.

Lemma feeds_edge edges edge :
  edge ∈ edges → feeds edges (e_source edge) (e_target edge).
Proof. intros Hin. by exists edge. Qed.

Lemma no_path_from edges x y :
  Forall (λ edge, e_source edge ≠ x) edges → ¬ tc (feeds edges) x y.
Proof.
  intros Hno Hp.
  assert (∃ z, feeds edges x z) as (z & e & He & Hs & _).
  { destruct Hp; eauto. }
  by apply (proj1 (Forall_forall _ _) Hno e He).
Qed.

Lemma no_path_to edges x y :
  Forall (λ edge, e_target edge ≠ y) edges → ¬ tc (feeds edges) x y.
Proof.
  intros Hno (e & He & Ht)%tc_feeds_target.
  by apply (proj1 (Forall_forall _ _) Hno e He).
Qed.

Lemma Sample_valid_acyclic : acyclic (p_edges Sample.valid).
Proof. apply (acyclic_ranked _ (rankIn ["input1"; "output1"])). compute_done. Qed.

Lemma Sample_valid_declared : edgesDeclared Sample.valid.
Proof. apply edgesDeclared_Forall. compute_done. Qed.

(** Claim C1. For every pipeline whose edge-induced graph is acyclic and
    whose edges all go between declared node ids, [topologicalSort] returns
    an order: it has no repetition and holds exactly the declared node ids,
    so it is a permutation of the node ids when these are unique (as the
    data model of a pipeline requires), and every edge has its source at an
    earlier position than its target. *)
Theorem topologicalSort_acyclic (p : Pipeline) :
  acyclic (p_edges p) → edgesDeclared p →
  ∃ order, topologicalSort p = Some order
    ∧ NoDup order
    ∧ (∀ x, x ∈ order ↔ x ∈ nodeIds p)
    ∧ (NoDup (nodeIds p) → order ≡ₚ nodeIds p)
    ∧ ∀ edge, edge ∈ p_edges p →
        precedes (e_source edge) (e_target edge) order.
Proof.
  intros Hacyc Hdecl.
  destruct (topologicalSort p) as [order|] eqn:Hsort.
  2: { apply topologicalSort_None_cyclic in Hsort as [x Hx]. by destruct (Hacyc x). }
  exists order. split; [done|].
  destruct (topologicalSort_Some p order Hsort) as (st & HI & <- & Hall & Hanc).
  assert (Hiff : ∀ x, x ∈ result st ↔ x ∈ nodeIds p).
  { intros x. split; [|by apply Hall].
    intros (y & Hy & [->|(e & He & <-)]%rtc_feeds_source)%Hanc; [done|].
    by apply Hdecl. }
  split_and!.
  - by apply (inv_nodup _ _ HI).
  - done.
  - intros Hnd. apply NoDup_Permutation; [by apply (inv_nodup _ _ HI)|done|done].
  - intros e He. apply (inv_order _ _ HI); [done|].
    apply (inv_result _ _ HI), Hall. by apply Hdecl.
Qed.

(** The theorem at [Sample.valid], whose node ids are unique. *)
Lemma topologicalSort_acyclic_witness :
  acyclic (p_edges Sample.valid) ∧ edgesDeclared Sample.valid
  ∧ NoDup (nodeIds Sample.valid)
  ∧ ∃ order, topologicalSort Sample.valid = Some order
      ∧ NoDup order
      ∧ (∀ x, x ∈ order ↔ x ∈ nodeIds Sample.valid)
      ∧ order ≡ₚ nodeIds Sample.valid
      ∧ ∀ edge, edge ∈ p_edges Sample.valid →
          precedes (e_source edge) (e_target edge) order.
Proof.
  assert (Hunique : NoDup (nodeIds Sample.valid)) by compute_done.
  split; [exact Sample_valid_acyclic|]. split; [exact Sample_valid_declared|].
  split; [exact Hunique|].
  destruct (topologicalSort_acyclic Sample.valid Sample_valid_acyclic
              Sample_valid_declared) as (order & Hsort & Hnd & Hiff & Hperm & Hedges).
  exists order. split_and!; [exact Hsort|exact Hnd|exact Hiff|exact (Hperm Hunique)
                           |exact Hedges].
Defined.

Example topologicalSort_valid :
  topologicalSort Sample.valid = Some ["input1"; "output1"].
Proof. compute_done. Qed.


(** The scheduler on a cyclic graph whose edges are declared. *)
Lemma topologicalSort_cyclic (p : Pipeline) :
  cyclic (p_edges p) → edgesDeclared p →
  topologicalSortFuel (sortFuel p) p = Finished None ∧ topologicalSort p = None.
Proof.
  intros [x Hx] Hdecl.
  assert (Hnone : topologicalSort p = None).
  { destruct (topologicalSort p) as [order|] eqn:Hsort; [|done].
    destruct (topologicalSort_Some p order Hsort) as (st & HI & <- & Hall & _).
    destruct (tc_feeds_target _ _ _ Hx) as (e & He & Ht).
    assert (x ∈ visited st).
    { apply (inv_result _ _ HI), Hall. rewrite <- Ht. by apply Hdecl. }
    destruct (precedes_irrefl x (result st)); [by apply (inv_nodup _ _ HI)|].
    by eapply precedes_of_path. }
  split; [|done].
  unfold topologicalSort in Hnone.
  destruct (topologicalSortFuel_finishes p) as [r Hr]. rewrite Hr in Hnone |- *.
  by subst r.
Qed.

(** Splitting the loop of [topologicalSort] at a position of the list. *)
Lemma visitEach_app v ids1 ids2 st :
  visitEach v (ids1 ++ ids2) st =
  match visitEach v ids1 st with
  | Finished (true, st1) => visitEach v ids2 st1
  | other => other
  end.
Proof.
  revert st. induction ids1 as [|x ids1 IH]; intros st; simpl; [done|].
  destruct (v x st) as [|[[] st1]]; [done| |done]. apply IH.
Qed.

Lemma precedes_app x y l k : x ∈ l → y ∉ l → y ∈ k → precedes x y (l ++ k).
Proof.
  intros (i & Hi)%list_elem_of_lookup Hy (j & Hj)%list_elem_of_lookup.
  exists i, (length l + j). split_and!.
  - by apply lookup_app_l_Some.
  - rewrite lookup_app_r by lia. by replace (length l + j - length l) with j by lia.
  - apply lookup_lt_Some in Hi. lia.
Qed.

(** Claim C7 as the specification states it fails on [Sample.tieBreak]:
    [b] is declared before [c] and no path joins them, yet [c], a dependency
    of the earlier [a], is scheduled before [b]. *)
Lemma tieBreak_counterexample :
  topologicalSort Sample.tieBreak = Some ["c"; "a"; "b"]
  ∧ nodeIds Sample.tieBreak = ["a"; "b"; "c"]
  ∧ precedes "b" "c" (nodeIds Sample.tieBreak)
  ∧ ¬ tc (feeds (p_edges Sample.tieBreak)) "b" "c"
  ∧ ¬ tc (feeds (p_edges Sample.tieBreak)) "c" "b"
  ∧ ¬ precedes "b" "c" ["c"; "a"; "b"].
Proof.
  split_and!.
  - compute_done.
  - compute_done.
  - exists 1, 2. split_and!; [done|done|lia].
  - apply no_path_from. compute_done.
  - apply no_path_to. compute_done.
  - intros Hbc.
    assert (Hcb : precedes "c" "b" ["c"; "a"; "b"]).
    { exists 0, 2. split_and!; [done|done|lia]. }
    apply (precedes_irrefl "b" ["c"; "a"; "b"]).
    + compute_done.
    + eapply precedes_trans; [compute_done|done|done].
Qed.

(** Claim C7, amended. When the scheduler returns an order and [a] is
    declared before [b], [a] stands before [b] in that order provided [b] has
    no directed edge path to [a] nor to any node declared before [a]. (A
    node that feeds an earlier-declared node is scheduled ahead of its
    declaration position.) *)
Theorem topologicalSort_declaration_order (p : Pipeline) order before a after b :
  topologicalSort p = Some order →
  nodeIds p = before ++ a :: after →
  b ∈ after →
  (∀ c, c ∈ before ++ [a] → ¬ rtc (feeds (p_edges p)) b c) →
  precedes a b order.
Proof.
  intros Hsort Hids Hb Hfree.
  unfold topologicalSort, topologicalSortFuel in Hsort. fold (nodeIds p) in Hsort.
  rewrite Hids, (cons_middle a), app_assoc, visitEach_app in Hsort.
  opose proof (scheduleLoop_ok p (before ++ [a]) initialSortState _ _ _) as H1;
    [|apply initialSortState_invariant|done|].
  { intros d Hd. rewrite Hids, (cons_middle a), app_assoc. apply elem_of_app. by left. }
  destruct (visitEach _ (before ++ [a]) _) as [|[[] st1]]; simpl in H1; [done| |done].
  destruct H1 as (HI1 & HV1 & Hvis1 & new1 & Hres1 & Hnew1). simpl in Hres1, HV1.
  opose proof (scheduleLoop_ok p after st1 _ HI1 HV1) as H2.
  { intros d Hd. rewrite Hids. apply elem_of_app. right. by apply elem_of_cons; right. }
  destruct (visitEach _ after st1) as [|[[] st2]]; simpl in H2, Hsort; [done| |done].
  destruct H2 as (HI2 & _ & Hvis2 & new2 & Hres2 & _).
  injection Hsort as <-. rewrite Hres2.
  assert (Hb1 : b ∉ result st1).
  { rewrite Hres1. intros (c & Hc & Hr)%Hnew1. by destruct (Hfree c Hc). }
  apply precedes_app; [|done|].
  - apply (inv_result _ _ HI1), Hvis1. apply elem_of_app. right. by apply list_elem_of_singleton.
  - assert (b ∈ result st1 ++ new2) as [?|?]%elem_of_app; [|done|done].
    rewrite <- Hres2. by apply (inv_result _ _ HI2), Hvis2.
Qed.

(** The theorem at [Sample.tieBreak], for [a] and [b]. *)
Lemma topologicalSort_declaration_order_witness :
  topologicalSort Sample.tieBreak = Some ["c"; "a"; "b"]
  ∧ nodeIds Sample.tieBreak = [] ++ "a" :: ["b"; "c"]
  ∧ "b" ∈ ["b"; "c"]
  ∧ (∀ c, c ∈ [] ++ ["a"] → ¬ rtc (feeds (p_edges Sample.tieBreak)) "b" c)
  ∧ precedes "a" "b" ["c"; "a"; "b"].
Proof.
  assert (Hsort : topologicalSort Sample.tieBreak = Some ["c"; "a"; "b"]) by compute_done.
  assert (Hids : nodeIds Sample.tieBreak = [] ++ "a" :: ["b"; "c"]) by compute_done.
  assert (Hb : "b" ∈ ["b"; "c"]) by compute_done.
  assert (Hfree : ∀ c, c ∈ [] ++ ["a"] →
                    ¬ rtc (feeds (p_edges Sample.tieBreak)) "b" c).
  { intros c ->%list_elem_of_singleton [Heq|Hp]%rtc_tc; [done|].
    revert Hp. apply no_path_from. compute_done. }
  split_and!; [done..|].
  exact (topologicalSort_declaration_order Sample.tieBreak _ _ _ _ _ Hsort Hids Hb Hfree).
Defined.


(** ** Validator *)

Lemma filter_none {A} (P : A → Prop) `{∀ x, Decision (P x)} (l : list A) :
  (∀ x, x ∈ l → ¬ P x) → filter P l = [].
Proof.
  induction l as [|x l IH]; intros Hno; [done|].
  rewrite filter_cons_False by (apply Hno; by left).
  apply IH. intros y Hy. apply Hno. by right.
Qed.

Lemma elem_of_concat {A} (x : A) (ls : list (list A)) :
  x ∈ concat ls ↔ ∃ l, x ∈ l ∧ l ∈ ls.
Proof.
  rewrite list_elem_of_In, in_concat. split.
  - intros (l & Hl & Hx). exists l. by rewrite !list_elem_of_In.
  - intros (l & Hx & Hl). exists l. by rewrite <- !list_elem_of_In.
Qed.

Lemma findNode_Some nodes id node :
  findNode nodes id = Some node → node ∈ nodes ∧ n_id node = id.
Proof.
  intros [Hin Hid]%find_some. split; [by apply list_elem_of_In|].
  by apply bool_decide_eq_true in Hid.
Qed.

Lemma findNode_None nodes id :
  findNode nodes id = None ↔ id ∉ (n_id <$> nodes).
Proof.
  unfold findNode. split.
  - intros Hnone (node & -> & Hin)%list_elem_of_fmap.
    apply list_elem_of_In in Hin.
    pose proof (find_none _ _ Hnone node Hin) as Hf. simpl in Hf.
    by apply bool_decide_eq_false in Hf.
  - intros Hnot. destruct (find _ nodes) as [node|] eqn:Hfind; [|done].
    destruct (findNode_Some _ _ _ Hfind) as [Hin <-].
    destruct Hnot. by apply list_elem_of_fmap_2.
Qed.


Lemma elem_of_structural d (message : string) (nodes : list PipelineNode) :
  d ∈ (if decide (length nodes = 0) then [message] else [])
  ↔ d = message ∧ nodes = [].
Proof.
  destruct (decide _) as [H%length_zero_iff_nil|H].
  - rewrite list_elem_of_singleton. split; [by intros ->|by intros [-> _]].
  - rewrite elem_of_nil. split; [done|]. intros [_ ->]. done.
Qed.

Lemma elem_of_validatePipeline p d :
  d ∈ validatePipeline p ↔
    (d = missingInputMessage ∧ nodesOfType NodeType.INPUT (p_nodes p) = [])
    ∨ (d = missingOutputMessage ∧ nodesOfType NodeType.OUTPUT (p_nodes p) = [])
    ∨ ∃ edge, edge ∈ p_edges p ∧ d ∈ validateEdge (p_nodes p) edge.
Proof.
  unfold validatePipeline.
  rewrite !elem_of_app, !elem_of_structural, elem_of_concat.
  assert ((∃ l, d ∈ l ∧ l ∈ validateEdge (p_nodes p) <$> p_edges p)
          ↔ ∃ edge, edge ∈ p_edges p ∧ d ∈ validateEdge (p_nodes p) edge) as ->; [|done].
  split.
  - intros (l & Hd & (e & -> & He)%list_elem_of_fmap). eauto.
  - intros (e & He & Hd). exists (validateEdge (p_nodes p) e). split; [done|].
    by apply list_elem_of_fmap_2.
Qed.









Example validatePipeline_incompatible :
  validatePipeline Sample.incompatible
  = ["Incompatible data types: pdf -> number (PDF Input -> Number Output)"].
Proof. compute_done. Qed.


(** Claim C3 as the specification states it fails on [Sample.danglingPort]:
    the only edge names an output port that its source node does not have,
    and the validator returns no diagnostic at all. *)
Lemma danglingPort_counterexample :
  ∃ edge sourceNode,
    p_edges Sample.danglingPort = [edge]
    ∧ findNode (p_nodes Sample.danglingPort) (e_source edge) = Some sourceNode
    ∧ e_sourceHandle edge = Some "summary"
    ∧ ("summary" ∉ port_id <$> d_outputs (n_data sourceNode))
    ∧ validatePipeline Sample.danglingPort = [].
Proof.
  eexists _, _. split_and!; [reflexivity|reflexivity|reflexivity|compute_done|compute_done].
Qed.

(** An edge with an undeclared end is reported. *)
Lemma invalidConnection_reported (p : Pipeline) edge :
  edge ∈ p_edges p →
  e_source edge ∉ nodeIds p ∨ e_target edge ∉ nodeIds p →
  invalidConnectionMessage edge ∈ validatePipeline p.
Proof.
  intros He Hdangling. apply elem_of_validatePipeline. right; right.
  exists edge. split; [done|]. unfold validateEdge.
  destruct Hdangling as [H%findNode_None|H%findNode_None]; rewrite H.
  - by apply list_elem_of_singleton.
  - destruct (findNode _ (e_source edge)); by apply list_elem_of_singleton.
Qed.

(** Claim C3, amended. For every edge of a pipeline whose source or target
    node id is not among the pipeline's nodes, the diagnostics of
    [validatePipeline] include the invalid-connection error naming the
    edge's two ends. An edge whose two node ids resolve but one of whose
    port ids does not resolve adds no diagnostic. *)
Theorem validatePipeline_danglingNode (p : Pipeline) edge :
  edge ∈ p_edges p →
  (e_source edge ∉ nodeIds p ∨ e_target edge ∉ nodeIds p →
     invalidConnectionMessage edge ∈ validatePipeline p)
  ∧ (∀ sourceNode targetNode,
       findNode (p_nodes p) (e_source edge) = Some sourceNode →
       findNode (p_nodes p) (e_target edge) = Some targetNode →
       findPort (d_outputs (n_data sourceNode)) (e_sourceHandle edge) = None
       ∨ findPort (d_inputs (n_data targetNode)) (e_targetHandle edge) = None →
       validateEdge (p_nodes p) edge = []).
Proof.
  intros He. split.
  - by apply invalidConnection_reported.
  - intros sourceNode targetNode Hs Ht Hports. unfold validateEdge.
    rewrite Hs, Ht. destruct Hports as [H|H]; rewrite H; [done|].
    by destruct (findPort _ (e_sourceHandle edge)).
Qed.

(** The theorem at the edge of [Sample.danglingNode]. *)
Lemma validatePipeline_danglingNode_witness :
  "Invalid connection: ghost -> output1" ∈ validatePipeline Sample.danglingNode.
Proof.
  pose (edge := buildEdge (p_nodes Sample.danglingNode)
                  (Sample.edge "edge1" "ghost" "output1" (Some "text") (Some "text"))).
  assert (Hin : edge ∈ p_edges Sample.danglingNode) by apply list_elem_of_here.
  apply (proj1 (validatePipeline_danglingNode Sample.danglingNode edge Hin)).
  left. compute_done.
Defined.





Example validatePipeline_empty :
  validatePipeline (Sample.build [] []) = [missingInputMessage; missingOutputMessage].
Proof. compute_done. Qed.

Example validatePipeline_circular :
  validatePipeline Sample.circular = [missingInputMessage; missingOutputMessage].
Proof. compute_done. Qed.

(** ** Emitter and entry points *)

(** The compilation reads the nodes, the edges and the name of the
    pipeline only. *)
Lemma generate_ext (p p' : Pipeline) generatedAt :
  p_nodes p = p_nodes p' → p_edges p = p_edges p' → p_name p = p_name p' →
  generate p generatedAt = generate p' generatedAt.
Proof.
  destruct p, p'. simpl. intros -> -> ->. reflexivity.
Qed.

Lemma append_cons ch (a b : string) : String ch a +:+ b = String ch (a +:+ b).
Proof. done. Qed.

Lemma append_assoc (a b c : string) : (a +:+ b) +:+ c = a +:+ b +:+ c.
Proof. induction a as [|ch a IH]; [done|by rewrite !append_cons, IH]. Qed.

Lemma append_nil_r (a : string) : a +:+ "" = a.
Proof. induction a as [|ch a IH]; [done|by rewrite append_cons, IH]. Qed.

Lemma occursIn_refl x : occursIn x x.
Proof. exists "", "". by rewrite append_nil_r. Qed.

Lemma occursIn_trans x y z : occursIn x y → occursIn y z → occursIn x z.
Proof.
  intros (a & b & ->) (c & d & ->). exists (c +:+ a), (b +:+ d).
  by rewrite !append_assoc.
Qed.

Lemma join_cons_cons sep x y l :
  join sep (x :: y :: l) = x +:+ sep +:+ join sep (y :: l).
Proof. done. Qed.

Lemma occursIn_join sep x l : x ∈ l → occursIn x (join sep l).
Proof.
  induction 1 as [x l|x y l Hin IH].
  - destruct l as [|y l]; [apply occursIn_refl|].
    rewrite join_cons_cons. exists "", (sep +:+ join sep (y :: l)). done.
  - destruct l as [|z l]; [by apply elem_of_nil in Hin|].
    rewrite join_cons_cons. destruct IH as (a & b & ->).
    exists (y +:+ sep +:+ a), b. by rewrite !append_assoc.
Qed.

(** A line of a joined text that ends with a hole: the text around the
    hole does not depend on what fills it. *)
Lemma join_hole sep before x after :
  ∃ pre post, ∀ t,
    join sep (before ++ (x +:+ t) :: after) = pre +:+ t +:+ post.
Proof.
  induction before as [|y before (pre & post & IH)].
  - destruct after as [|z after].
    + exists x, "". intros t. simpl. by rewrite append_nil_r.
    + exists x, (sep +:+ join sep (z :: after)). intros t.
      simpl app. rewrite join_cons_cons. by rewrite append_assoc.
  - exists (y +:+ sep +:+ pre), post. intros t.
    destruct before as [|z before]; simpl app in *; rewrite join_cons_cons, IH;
      by rewrite !append_assoc.
Qed.

Lemma mapM_Return {A B} (f : A → Exc B) l ys x :
  mapM f l = Return ys → x ∈ l → ∃ y, f x = Return y ∧ y ∈ ys.
Proof.
  revert ys. induction l as [|a l IH]; intros ys Hm Hx; [by apply elem_of_nil in Hx|].
  simpl in Hm. destruct (f a) as [b|] eqn:Hfa; simpl in Hm; [|done].
  destruct (mapM f l) as [bs|]; simpl in Hm; [|done].
  injection Hm as <-.
  apply elem_of_cons in Hx as [->|Hx].
  - exists b. split; [done|by left].
  - destruct (IH bs eq_refl Hx) as (y & Hy & Hin). exists y. split; [done|by right].
Qed.

Lemma generate_cases (p : Pipeline) generatedAt :
  ∃ r, generate p generatedAt = Return r ∧ GenerateCase p generatedAt r.
Proof.
  unfold generate, generateBody.
  destruct (decide (0 < length (validatePipeline p))) as [Hv|Hv]; simpl.
  { eexists. split; [done|]. constructor. intros Hnil. rewrite Hnil in Hv. simpl in Hv. lia. }
  assert (validatePipeline p = []) as Hvalid.
  { destruct (validatePipeline p); [done|simpl in Hv; lia]. }
  destruct (topologicalSort p) as [order|] eqn:Hsort; simpl.
  2: { eexists. split; [done|]. by constructor. }
  destruct (generateKotlinCode p generatedAt order) as [code|msg] eqn:Hcode; simpl.
  - eexists. split; [done|]. by econstructor.
  - eexists. split; [done|]. econstructor; [done..|].
    unfold generateBody. rewrite decide_False by done. by rewrite Hsort, Hcode.
Qed.

(** On nodes and edges of the declared shapes [generateCodeFromPipeline]
    returns a result: an exception raised inside the [try] block
    (validation, scheduling or emission) becomes the failure carrying its
    message, and every failure has a non-empty error list and neither
    source text nor build file. *)
Theorem generateCodeFromPipeline_catches (clock : Clock) nodes edges pipelineName :
  let p := buildPipeline clock nodes edges (orElse pipelineName "Generated Pipeline") in
  ∃ r, generateCodeFromPipeline clock nodes edges pipelineName = Return r
    ∧ (∀ message, generateBody p (clk_generatedAt clock) = Throw message →
         r = failure ["Code generation failed: " +:+ message])
    ∧ (success r = false →
         errors r ≠ [] ∧ kotlinCode r = None ∧ buildGradle r = None).
Proof.
  intros p. unfold generateCodeFromPipeline. fold p.
  destruct (generate_cases p (clk_generatedAt clock)) as (r & Hr & Hcase).
  exists r. split; [done|]. split.
  - intros msg Hthrow. unfold generate in Hr. rewrite Hthrow in Hr. simpl in Hr.
    by injection Hr as <-.
  - destruct Hcase; simpl; try done; intros _; split_and!; done.
Qed.

(** An exception of the emitter, caught: the configuration of
    [Sample.cyclicConfigNodes] cannot be rendered. *)
Example generateCodeFromPipeline_cyclicConfig :
  generateCodeFromPipeline Sample.clock Sample.cyclicConfigNodes Sample.validEdges None
  = Return (failure ["Code generation failed: Converting circular structure to JSON"]).
Proof. compute_done. Qed.

Lemma generate_emitted (p : Pipeline) generatedAt order code :
  validatePipeline p = [] → topologicalSort p = Some order →
  generateKotlinCode p generatedAt order = Return code →
  generate p generatedAt =
    Return {| success := true; kotlinCode := Some code;
              buildGradle := Some generateBuildGradle; errors := [];
              warnings := getWarnings p |}.
Proof.
  intros Hvalid Hsort Hcode. unfold generate, generateBody.
  rewrite Hvalid, Hsort. simpl. by rewrite Hcode.
Qed.

Lemma success_emitted (p : Pipeline) generatedAt r :
  generate p generatedAt = Return r → success r = true →
  ∃ order code,
    validatePipeline p = [] ∧ topologicalSort p = Some order
    ∧ generateKotlinCode p generatedAt order = Return code
    ∧ r = {| success := true; kotlinCode := Some code;
             buildGradle := Some generateBuildGradle; errors := [];
             warnings := getWarnings p |}.
Proof.
  intros Hr Hsuccess.
  destruct (generate_cases p generatedAt) as (r' & Hr' & Hcase).
  rewrite Hr in Hr'. injection Hr' as <-.
  destruct Hcase; simpl in Hsuccess; try done. eauto 10.
Qed.

(** The template of [generateKotlinCode] around the timestamp. *)
Lemma kotlinTemplate_hole (p : Pipeline) imports classBody nodeConfigurations
    executionSequence outputExtraction :
  ∃ pre post, ∀ generatedAt,
    kotlinTemplate p imports classBody generatedAt nodeConfigurations
      executionSequence outputExtraction
    = pre +:+ generatedAt +:+ post.
Proof.
  set (L := kotlinTemplateLines p imports classBody "" nodeConfigurations
              executionSequence outputExtraction).
  destruct (join_hole nl (take 8 L) " * Generated at: " (drop 9 L))
    as (pre & post & H).
  exists pre, post. intros generatedAt. rewrite <- H. reflexivity.
Qed.

Lemma generateKotlinCode_hole (p : Pipeline) order :
  (∃ message, ∀ generatedAt, generateKotlinCode p generatedAt order = Throw message)
  ∨ (∃ pre post, ∀ generatedAt,
       generateKotlinCode p generatedAt order = Return (pre +:+ generatedAt +:+ post)).
Proof.
  unfold generateKotlinCode.
  destruct (generateClassBody p order) as [classBody|msg]; simpl; [|eauto].
  destruct (generateNodeConfigurations p) as [configs|msg]; simpl; [|eauto].
  destruct (generateExecutionSequence p order) as [calls|msg]; simpl; [|eauto].
  right.
  destruct (kotlinTemplate_hole p (join nl requiredImports) classBody configs calls
              (generateOutputExtraction p)) as (pre & post & H).
  exists pre, post. intros generatedAt. by rewrite H.
Qed.

(** Claim C6. Two compilations of the same nodes, edges and name, run at
    different times, succeed together; their Kotlin texts are the same text
    around the one place that holds the generation timestamp, and their
    build files and warnings are equal. *)
Theorem generateCodeFromPipeline_deterministic (clock1 clock2 : Clock)
    nodes edges pipelineName r1 :
  generateCodeFromPipeline clock1 nodes edges pipelineName = Return r1 →
  success r1 = true →
  ∃ r2 pre post,
    generateCodeFromPipeline clock2 nodes edges pipelineName = Return r2
    ∧ success r2 = true
    ∧ kotlinCode r1 = Some (pre +:+ clk_generatedAt clock1 +:+ post)
    ∧ kotlinCode r2 = Some (pre +:+ clk_generatedAt clock2 +:+ post)
    ∧ is_Some (buildGradle r1)
    ∧ buildGradle r1 = buildGradle r2
    ∧ warnings r1 = warnings r2.
Proof.
  unfold generateCodeFromPipeline.
  set (name := orElse pipelineName "Generated Pipeline").
  set (p1 := buildPipeline clock1 nodes edges name).
  set (p2 := buildPipeline clock2 nodes edges name).
  intros Hr1 Hsuccess.
  rewrite (generate_ext p2 p1) by done.
  destruct (success_emitted _ _ _ Hr1 Hsuccess) as (order & code & Hvalid & Hsort & Hcode & ->).
  destruct (generateKotlinCode_hole p1 order) as [(msg & H)|(pre & post & H)].
  { rewrite H in Hcode. done. }
  rewrite H in Hcode. injection Hcode as <-.
  eexists _, pre, post. split.
  { apply (generate_emitted p1 _ order); [done|done|apply H]. }
  simpl. split_and!; done.
Qed.

(** The theorem at [Sample.valid], compiled at two times. *)
Lemma generateCodeFromPipeline_deterministic_witness :
  ∃ r1 r2 pre post,
    generateCodeFromPipeline Sample.clock Sample.validNodes Sample.validEdges None
      = Return r1
    ∧ success r1 = true
    ∧ generateCodeFromPipeline Sample.laterClock Sample.validNodes
        Sample.validEdges None = Return r2
    ∧ success r2 = true
    ∧ kotlinCode r1 = Some (pre +:+ clk_generatedAt Sample.clock +:+ post)
    ∧ kotlinCode r2 = Some (pre +:+ clk_generatedAt Sample.laterClock +:+ post)
    ∧ is_Some (buildGradle r1)
    ∧ buildGradle r1 = buildGradle r2
    ∧ warnings r1 = warnings r2.
Proof.
  eexists.
  destruct (generateCodeFromPipeline_deterministic Sample.clock Sample.laterClock
              Sample.validNodes Sample.validEdges None _ eq_refl eq_refl)
    as (r2 & pre & post & H).
  exists r2, pre, post. split; [reflexivity|]. split; [reflexivity|]. exact H.
Defined.


Lemma noConfigurationWarning_not_many node :
  noConfigurationWarning node ≠ manyProcessingNodesWarning.
Proof. intros H; discriminate H. Qed.

(** Claim C9. In the result of a successful compilation the warnings are,
    in this order: the text [Pipeline has many processing nodes - consider
    optimizing for performance] when more than 10 nodes have the category
    [processing], and then, for each node whose configuration has no
    entry, in declaration order, the text [Node '<label>' has no
    configuration - using defaults]. So the first text is among the
    warnings exactly when there are more than 10 such nodes, and the other
    warnings are one per node with an empty configuration. *)
Theorem generate_warnings (p : Pipeline) generatedAt r :
  generate p generatedAt = Return r → success r = true →
  let processing := filter (λ node, d_type (n_data node) = "processing") (p_nodes p) in
  let unconfigured := filter (λ node, d_config (n_data node) = []) (p_nodes p) in
  let many := "Pipeline has many processing nodes - consider optimizing for performance" in
  let defaults := λ node : PipelineNode,
    "Node '" +:+ d_label (n_data node) +:+ "' has no configuration - using defaults" in
  warnings r = (if decide (10 < length processing) then [many] else [])
               ++ (defaults <$> unconfigured)
  ∧ (many ∈ warnings r ↔ 10 < length processing)
  ∧ filter (λ w, w ≠ many) (warnings r) = defaults <$> unconfigured
  ∧ length (filter (λ w, w ≠ many) (warnings r)) = length unconfigured.
Proof.
  intros Hr Hsuccess processing unconfigured many defaults.
  destruct (success_emitted _ _ _ Hr Hsuccess) as (order & code & _ & _ & _ & ->).
  simpl.
  assert (Hwarnings : getWarnings p
            = (if decide (10 < length processing) then [many] else [])
              ++ (defaults <$> unconfigured)).
  { unfold getWarnings. f_equal. f_equal. apply list_filter_iff.
    intros node. unfold hasEmptyConfig. apply length_zero_iff_nil. }
  assert (Hne : ∀ node, defaults node ≠ many).
  { intros node H. discriminate H. }
  assert (Hrest : ∀ l : list PipelineNode,
            filter (λ w, w ≠ many) (defaults <$> l) = defaults <$> l).
  { induction l as [|node l IH]; [done|]. rewrite fmap_cons.
    rewrite filter_cons_True by apply Hne. by rewrite IH. }
  assert (Hothers : filter (λ w, w ≠ many) (getWarnings p) = defaults <$> unconfigured).
  { rewrite Hwarnings, filter_app, Hrest. destruct (decide (10 < _)); [|done].
    by rewrite filter_cons_False by (intros H; by apply H). }
  split_and!.
  - exact Hwarnings.
  - rewrite Hwarnings, elem_of_app. destruct (decide (10 < _)) as [Hmany|Hmany].
    + split; [done|]. intros _. left. by apply list_elem_of_singleton.
    + split; [|done]. intros [[]%elem_of_nil|(node & Hw & _)%list_elem_of_fmap].
      by destruct (Hne node).
  - exact Hothers.
  - by rewrite Hothers, length_fmap.
Qed.

(** The theorem at [Sample.manyProcessing]: thirteen nodes, eleven of them
    processing steps, all but the first step without configuration. *)
Lemma generate_warnings_witness :
  ∃ r, generate Sample.manyProcessing (clk_generatedAt Sample.clock) = Return r
    ∧ success r = true
    ∧ warnings r =
        ["Pipeline has many processing nodes - consider optimizing for performance";
         "Node 'Text Input' has no configuration - using defaults";
         "Node 'Step 2' has no configuration - using defaults";
         "Node 'Step 3' has no configuration - using defaults";
         "Node 'Step 4' has no configuration - using defaults";
         "Node 'Step 5' has no configuration - using defaults";
         "Node 'Step 6' has no configuration - using defaults";
         "Node 'Step 7' has no configuration - using defaults";
         "Node 'Step 8' has no configuration - using defaults";
         "Node 'Step 9' has no configuration - using defaults";
         "Node 'Step 10' has no configuration - using defaults";
         "Node 'Step 11' has no configuration - using defaults";
         "Node 'Text Output' has no configuration - using defaults"].
Proof.
  eexists. split; [reflexivity|]. split; [reflexivity|].
  exact (proj1 (generate_warnings Sample.manyProcessing (clk_generatedAt Sample.clock)
                  _ eq_refl eq_refl)).
Defined.

Example generate_valid_warnings :
  ∃ r, generate Sample.valid (clk_generatedAt Sample.clock) = Return r
    ∧ warnings r = ["Node 'Text Input' has no configuration - using defaults";
                    "Node 'Text Output' has no configuration - using defaults"].
Proof. eexists. split; reflexivity. Qed.







Lemma validatePipeline_nil_edgesDeclared (p : Pipeline) :
  validatePipeline p = [] → edgesDeclared p.
Proof.
  intros Hvalid e He.
  assert (Hno : invalidConnectionMessage e ∉ validatePipeline p).
  { rewrite Hvalid. apply not_elem_of_nil. }
  split; apply dec_stable; intros Hnot; apply Hno, invalidConnection_reported; auto.
Qed.

Lemma Sample_circular_cyclic : cyclic (p_edges Sample.circular).
Proof.
  exists "node1". eapply tc_l; [|apply tc_once].
  - eexists. split; [apply list_elem_of_here|done].
  - eexists. split; [apply list_elem_of_further, list_elem_of_here|done].
Qed.

Lemma Sample_undeclaredCycle_cyclic : cyclic (p_edges Sample.undeclaredCycle).
Proof.
  exists "ghost1". eapply tc_l; [|apply tc_once].
  - eexists. split; [apply list_elem_of_here|done].
  - eexists. split; [apply list_elem_of_further, list_elem_of_here|done].
Qed.

(** Claim C4 as the specification states it fails twice. On
    [Sample.circular] the edges form a cycle, yet the compilation fails with
    the two structural errors of the validator and without the cycle
    diagnostic. On [Sample.undeclaredCycle] the cycle runs through ids that
    no node declares, and the scheduler returns an order. *)
Lemma circular_counterexample :
  (cyclic (p_edges Sample.circular)
   ∧ ∃ r, generate Sample.circular (clk_generatedAt Sample.clock) = Return r
       ∧ errors r = [missingInputMessage; missingOutputMessage]
       ∧ (circularDependencyMessage ∉ errors r))
  ∧ (cyclic (p_edges Sample.undeclaredCycle)
     ∧ topologicalSort Sample.undeclaredCycle = Some ["input1"; "output1"]).
Proof.
  split; split.
  - exact Sample_circular_cyclic.
  - eexists. split_and!; [reflexivity|reflexivity|compute_done].
  - exact Sample_undeclaredCycle_cyclic.
  - compute_done.
Qed.

(** Claim C4, amended. For every pipeline whose edge-induced graph
    contains a cycle: if all edges go between declared node ids, the
    scheduler reports the cycle ([null]) and returns no order; and the
    compilation returns a failure with neither source text nor build file,
    whose errors are the validator's diagnostics when there are any and
    otherwise the cycle diagnostic alone. *)
Theorem generate_cyclic (p : Pipeline) generatedAt :
  cyclic (p_edges p) →
  (edgesDeclared p →
     topologicalSortFuel (sortFuel p) p = Finished None ∧ topologicalSort p = None)
  ∧ ∃ r, generate p generatedAt = Return r
      ∧ success r = false ∧ kotlinCode r = None ∧ buildGradle r = None
      ∧ (validatePipeline p ≠ [] → errors r = validatePipeline p)
      ∧ (validatePipeline p = [] → errors r = [circularDependencyMessage]).
Proof.
  intros Hcyclic. split; [by apply topologicalSort_cyclic|].
  destruct (generate_cases p generatedAt) as (r & Hr & Hcase).
  exists r. split; [done|].
  assert (Hnone : validatePipeline p = [] → topologicalSort p = None).
  { intros Hdecl%validatePipeline_nil_edgesDeclared.
    by apply topologicalSort_cyclic. }
  destruct Hcase as [Hinvalid|Hvalid Hsort|order msg Hvalid Hsort|order code Hvalid Hsort]; simpl.
  - split_and!; done.
  - split_and!; done.
  - rewrite Hnone in Hsort; done.
  - rewrite Hnone in Hsort; done.
Qed.

Lemma Sample_circularValid_cyclic : cyclic (p_edges Sample.circularValid).
Proof.
  exists "input1". eapply tc_l; [|apply tc_once].
  - eexists. split; [apply list_elem_of_here|done].
  - eexists. split; [apply list_elem_of_further, list_elem_of_here|done].
Qed.

(** The theorem at [Sample.circularValid], which passes validation. *)
Lemma generate_cyclic_witness :
  cyclic (p_edges Sample.circularValid)
  ∧ edgesDeclared Sample.circularValid
  ∧ validatePipeline Sample.circularValid = []
  ∧ topologicalSortFuel (sortFuel Sample.circularValid) Sample.circularValid
    = Finished None
  ∧ topologicalSort Sample.circularValid = None
  ∧ ∃ r, generate Sample.circularValid (clk_generatedAt Sample.clock) = Return r
      ∧ success r = false ∧ kotlinCode r = None ∧ buildGradle r = None
      ∧ errors r = [circularDependencyMessage].
Proof.
  assert (Hdeclared : edgesDeclared Sample.circularValid).
  { apply edgesDeclared_Forall. compute_done. }
  assert (Hvalid : validatePipeline Sample.circularValid = []) by compute_done.
  destruct (generate_cyclic Sample.circularValid (clk_generatedAt Sample.clock)
              Sample_circularValid_cyclic)
    as (Hscheduler & r & Hr & Hfailure & Hcode & Hgradle & _ & Herrors).
  destruct (Hscheduler Hdeclared) as [Hfuel Hsort].
  split_and!; [exact Sample_circularValid_cyclic|exact Hdeclared|exact Hvalid
              |exact Hfuel|exact Hsort|].
  exists r. split_and!; [exact Hr|exact Hfailure|exact Hcode|exact Hgradle
                       |exact (Herrors Hvalid)].
Defined.

Example generate_circularValid :
  generate Sample.circularValid (clk_generatedAt Sample.clock)
  = Return (failure [circularDependencyMessage]).
Proof. compute_done. Qed.

(** ** Further properties of the scheduler *)

(** The recursion of [visit] ends on every pipeline, cyclic or not: any
    budget of at least [sortFuel p] frames gives the answer of
    [topologicalSort]. *)
Theorem topologicalSort_terminates (p : Pipeline) (extra : nat) :
  topologicalSortFuel (sortFuel p + extra) p = Finished (topologicalSort p).
Proof.
  rewrite topologicalSortFuel_mono. unfold topologicalSort.
  by destruct (topologicalSortFuel_finishes p) as [r ->].
Qed.

(** [null] is never a false alarm: whatever the edges refer to, the
    scheduler reports a circular dependency only when the edges form a
    cycle. *)
Theorem topologicalSort_null_sound (p : Pipeline) :
  topologicalSort p = None → cyclic (p_edges p).
Proof. apply topologicalSort_None_cyclic. Qed.

Lemma topologicalSort_null_sound_witness :
  topologicalSort Sample.circular = None ∧ cyclic (p_edges Sample.circular).
Proof.
  assert (Hnull : topologicalSort Sample.circular = None) by compute_done.
  split; [exact Hnull|]. exact (topologicalSort_null_sound Sample.circular Hnull).
Defined.

(** What an order returned by the scheduler holds, also when edges refer to
    ids that no node declares: no id twice; exactly the ids from which a
    declared node can be reached along edges (the declared ids among them);
    every edge into a scheduled id has its source earlier; and no scheduled
    id lies on a cycle. *)
Theorem topologicalSort_closure (p : Pipeline) order :
  topologicalSort p = Some order →
  NoDup order
  ∧ (∀ x, x ∈ order ↔ ∃ y, y ∈ nodeIds p ∧ rtc (feeds (p_edges p)) x y)
  ∧ (∀ edge, edge ∈ p_edges p → e_target edge ∈ order →
       precedes (e_source edge) (e_target edge) order)
  ∧ (∀ x, x ∈ order → ¬ tc (feeds (p_edges p)) x x).
Proof.
  intros Hsort.
  destruct (topologicalSort_Some p order Hsort) as (st & HI & <- & Hall & Hanc).
  assert (Hclosed : ∀ x y, rtc (feeds (p_edges p)) x y → y ∈ result st → x ∈ result st).
  { induction 1 as [|x z y (e & He & <- & <-) _ IH]; [done|].
    intros Hy%IH. eapply precedes_elem_l.
    apply (inv_order _ _ HI); [done|]. by apply (inv_result _ _ HI). }
  split_and!.
  - by apply (inv_nodup _ _ HI).
  - intros x. split; [by apply Hanc|].
    intros (y & Hy & Hr). eapply Hclosed; [done|]. by apply Hall.
  - intros e He Ht. apply (inv_order _ _ HI); [done|]. by apply (inv_result _ _ HI).
  - intros x Hx Hcycle.
    apply (precedes_irrefl x (result st)); [by apply (inv_nodup _ _ HI)|].
    eapply precedes_of_path; [done|done|]. by apply (inv_result _ _ HI).
Qed.

Lemma topologicalSort_closure_witness :
  topologicalSort Sample.undeclaredCycle = Some ["input1"; "output1"]
  ∧ NoDup ["input1"; "output1"]
  ∧ (∀ x, x ∈ ["input1"; "output1"] ↔
          ∃ y, y ∈ nodeIds Sample.undeclaredCycle
               ∧ rtc (feeds (p_edges Sample.undeclaredCycle)) x y)
  ∧ (∀ edge, edge ∈ p_edges Sample.undeclaredCycle →
       e_target edge ∈ ["input1"; "output1"] →
       precedes (e_source edge) (e_target edge) ["input1"; "output1"])
  ∧ (∀ x, x ∈ ["input1"; "output1"] →
       ¬ tc (feeds (p_edges Sample.undeclaredCycle)) x x).
Proof.
  assert (Hsort : topologicalSort Sample.undeclaredCycle = Some ["input1"; "output1"])
    by compute_done.
  split; [exact Hsort|].
  exact (topologicalSort_closure Sample.undeclaredCycle _ Hsort).
Defined.

(** A visit of a node that is neither finished nor on the stack, and whose
    dependencies are all finished, pushes that node and nothing else. *)
Lemma visitEach_finished edges fuel ids st :
  (∀ d, d ∈ ids → (d ∉ visiting st) ∧ d ∈ visited st) →
  visitEach (visit edges (S fuel)) ids st = Finished (true, st).
Proof.
  induction ids as [|d ids IH]; intros Hids; [done|].
  destruct (Hids d) as [Hving Hved]; [by left|].
  simpl. rewrite decide_False, decide_True by done.
  apply IH. intros d' Hd'. apply Hids. by right.
Qed.

Lemma visit_ready edges fuel n st :
  n ∉ visiting st → n ∉ visited st →
  (∀ d, d ∈ dependencies edges n → d ≠ n ∧ (d ∉ visiting st) ∧ d ∈ visited st) →
  visit edges (S (S fuel)) n st =
    Finished (true, {| visited := {[n]} ∪ visited st;
                       visiting := ({[n]} ∪ visiting st) ∖ {[n]};
                       result := result st ++ [n] |}).
Proof.
  intros Hving Hved Hdeps.
  change (visit edges (S (S fuel)) n st) with
    (if decide (n ∈ visiting st) then Finished (false, st)
     else if decide (n ∈ visited st) then Finished (true, st)
     else match visitEach (visit edges (S fuel)) (dependencies edges n)
                  {| visited := visited st; visiting := {[n]} ∪ visiting st;
                     result := result st |} with
          | Finished (true, st2) =>
              Finished (true, {| visited := {[n]} ∪ visited st2;
                                 visiting := visiting st2 ∖ {[n]};
                                 result := result st2 ++ [n] |})
          | other => other
          end).
  rewrite !decide_False by done.
  rewrite visitEach_finished; [done|].
  intros d Hd. destruct (Hdeps d Hd) as (Hne & Hv1 & Hv2). simpl.
  split; [|done]. intros [Heq%elem_of_singleton|?]%elem_of_union; done.
Qed.

Lemma precedes_in_prefix x y l1 l2 :
  NoDup (l1 ++ y :: l2) → precedes x y (l1 ++ y :: l2) → x ∈ l1.
Proof.
  intros Hnd (i & j & Hi & Hj & Hlt).
  assert (Hy : (l1 ++ y :: l2) !! length l1 = Some y).
  { rewrite lookup_app_r by lia. by rewrite Nat.sub_diag. }
  pose proof (NoDup_lookup _ _ _ _ Hnd Hj Hy) as ->.
  rewrite lookup_app_l in Hi by done. by eapply list_elem_of_lookup_2.
Qed.

Lemma scheduleLoop_sorted edges fuel done rest st :
  NoDup (done ++ rest) →
  (∀ edge, edge ∈ edges →
     precedes (e_source edge) (e_target edge) (done ++ rest)) →
  visited st = list_to_set done → visiting st = ∅ → result st = done →
  ∃ st', visitEach (visit edges (S (S fuel))) rest st = Finished (true, st')
         ∧ result st' = done ++ rest.
Proof.
  revert done st. induction rest as [|n rest IH]; intros done st Hnd Hedges Hved Hving Hres.
  { exists st. by rewrite app_nil_r. }
  assert (Hfresh : n ∉ done).
  { apply NoDup_app in Hnd as (_ & Hdis & _). intros Hin. apply (Hdis n Hin). by left. }
  assert (Hready : visit edges (S (S fuel)) n st =
            Finished (true, {| visited := {[n]} ∪ visited st;
                               visiting := ({[n]} ∪ visiting st) ∖ {[n]};
                               result := result st ++ [n] |})).
  { apply visit_ready.
    - rewrite Hving. apply not_elem_of_empty.
    - rewrite Hved. by rewrite elem_of_list_to_set.
    - intros d (e & -> & [Ht He]%list_elem_of_filter)%list_elem_of_fmap.
      pose proof (Hedges e He) as Hprec. rewrite Ht in Hprec.
      pose proof (precedes_in_prefix _ _ _ _ Hnd Hprec) as Hin.
      split_and!.
      + intros Heq. rewrite Heq in Hin. done.
      + rewrite Hving. apply not_elem_of_empty.
      + rewrite Hved. by apply elem_of_list_to_set. }
  cbn [visitEach]. rewrite Hready.
  destruct (IH (done ++ [n])
              {| visited := {[n]} ∪ visited st;
                 visiting := ({[n]} ∪ visiting st) ∖ {[n]};
                 result := result st ++ [n] |}) as (st' & Hrun & Hres').
  - by rewrite <- app_assoc.
  - by rewrite <- app_assoc.
  - simpl. rewrite Hved. clear. set_solver.
  - simpl. rewrite Hving. clear. set_solver.
  - simpl. by rewrite Hres.
  - exists st'. split; [done|]. by rewrite Hres', <- app_assoc.
Qed.

(** A declaration order that is already a schedule is kept: when the node
    ids are unique and every edge goes from a node to one declared later,
    the scheduler returns the nodes in declaration order. *)
Theorem topologicalSort_sorted_input (p : Pipeline) :
  NoDup (nodeIds p) →
  (∀ edge, edge ∈ p_edges p →
     precedes (e_source edge) (e_target edge) (nodeIds p)) →
  topologicalSort p = Some (nodeIds p).
Proof.
  intros Hnd Hedges.
  unfold topologicalSort, topologicalSortFuel. fold (nodeIds p).
  destruct (p_nodes p) as [|node nodes] eqn:Hnodes.
  { unfold nodeIds. by rewrite Hnodes. }
  assert (Hfuel : sortFuel p = S (S (length nodes + length (p_edges p)))).
  { unfold sortFuel. by rewrite Hnodes. }
  rewrite Hfuel.
  destruct (scheduleLoop_sorted (p_edges p) (length nodes + length (p_edges p))
              [] (nodeIds p) initialSortState)
    as (st' & Hrun & Hres); [done..|].
  rewrite Hrun. by rewrite Hres.
Qed.

Lemma topologicalSort_sorted_input_witness :
  NoDup (nodeIds Sample.valid)
  ∧ (∀ edge, edge ∈ p_edges Sample.valid →
       precedes (e_source edge) (e_target edge) (nodeIds Sample.valid))
  ∧ topologicalSort Sample.valid = Some (nodeIds Sample.valid).
Proof.
  assert (Hnd : NoDup (nodeIds Sample.valid)) by compute_done.
  assert (Hedges : ∀ edge, edge ∈ p_edges Sample.valid →
            precedes (e_source edge) (e_target edge) (nodeIds Sample.valid)).
  { intros edge ->%list_elem_of_singleton. exists 0, 1. split_and!; [done|done|lia]. }
  split; [exact Hnd|]. split; [exact Hedges|].
  exact (topologicalSort_sorted_input Sample.valid Hnd Hedges).
Defined.

(** ** Further properties of the validator *)

Lemma validateEdge_nil_iff nodes edge :
  validateEdge nodes edge = [] ↔ edgeAccepted nodes edge.
Proof.
  unfold validateEdge, edgeAccepted. split.
  - intros H.
    destruct (findNode nodes (e_source edge)) as [s|]; [|done].
    destruct (findNode nodes (e_target edge)) as [t|]; [|done].
    exists s, t. split_and!; [done|done|].
    intros sp tp Hsp Htp. rewrite Hsp, Htp in H.
    by destruct (isDataTypeCompatible _ _).
  - intros (s & t & -> & -> & Hports).
    destruct (findPort _ (e_sourceHandle edge)) as [sp|]; [|done].
    destruct (findPort _ (e_targetHandle edge)) as [tp|]; [|done].
    by rewrite (Hports sp tp).
Qed.

Lemma nodesOfType_cons t nodes :
  nodesOfType t nodes ≠ [] → ∃ node, node ∈ nodes ∧ d_type (n_data node) = t.
Proof.
  destruct (nodesOfType t nodes) as [|node rest] eqn:Hfilter; [done|]. intros _.
  assert (Hin : node ∈ nodesOfType t nodes) by (rewrite Hfilter; by left).
  apply list_elem_of_filter in Hin as [Ht Hin]. eauto.
Qed.

Lemma nodesOfType_nil_iff t nodes :
  nodesOfType t nodes = [] ↔ ¬ ∃ node, node ∈ nodes ∧ d_type (n_data node) = t.
Proof.
  split.
  - intros Hnil (node & Hin & Ht).
    by apply (filter_nil_not_elem_of _ _ node Hnil Ht).
  - intros Hno. apply filter_none. intros node Hin Ht. apply Hno. eauto.
Qed.

Lemma validatePipeline_nil_edges (p : Pipeline) edge :
  validatePipeline p = [] → edge ∈ p_edges p → validateEdge (p_nodes p) edge = [].
Proof.
  intros Hvalid He.
  destruct (validateEdge (p_nodes p) edge) as [|d l] eqn:Hedge; [done|].
  assert (Hd : d ∈ validatePipeline p).
  { apply elem_of_validatePipeline. right; right.
    exists edge. split; [done|]. rewrite Hedge. by left. }
  rewrite Hvalid in Hd. by apply elem_of_nil in Hd.
Qed.

(** A pipeline passes validation exactly when it has a node of category
    Input, a node of category Output, and every edge joins two declared
    nodes through ports whose types are compatible if both ports exist. *)
Theorem validatePipeline_nil_iff (p : Pipeline) :
  validatePipeline p = []
  ↔ (∃ node, node ∈ p_nodes p ∧ d_type (n_data node) = NodeType.INPUT)
    ∧ (∃ node, node ∈ p_nodes p ∧ d_type (n_data node) = NodeType.OUTPUT)
    ∧ ∀ edge, edge ∈ p_edges p → edgeAccepted (p_nodes p) edge.
Proof.
  split.
  - intros Hvalid.
    assert (Hno : ∀ d, d ∉ validatePipeline p).
    { intros d. rewrite Hvalid. apply not_elem_of_nil. }
    split_and!.
    + apply nodesOfType_cons. intros Hnone.
      apply (Hno missingInputMessage), elem_of_validatePipeline. auto.
    + apply nodesOfType_cons. intros Hnone.
      apply (Hno missingOutputMessage), elem_of_validatePipeline. auto.
    + intros e He. by apply validateEdge_nil_iff, validatePipeline_nil_edges.
  - intros (Hin & Hout & Hedges). apply elem_of_nil_inv. intros d.
    rewrite elem_of_validatePipeline. intros [[_ Hnil]|[[_ Hnil]|(e & He & Hd)]].
    + by apply nodesOfType_nil_iff in Hnil.
    + by apply nodesOfType_nil_iff in Hnil.
    + apply Hedges, validateEdge_nil_iff in He. rewrite He in Hd.
      by apply elem_of_nil in Hd.
Qed.

Lemma length_validateEdge nodes edge : (length (validateEdge nodes edge) ≤ 1)%nat.
Proof. unfold validateEdge. repeat case_match; simpl; lia. Qed.

(** The validator reports at most two structural errors and at most one
    diagnostic for each edge. *)
Theorem length_validatePipeline (p : Pipeline) :
  (length (validatePipeline p) ≤ 2 + length (p_edges p))%nat.
Proof.
  unfold validatePipeline. rewrite !length_app.
  assert (Hedges : (length (concat (validateEdge (p_nodes p) <$> p_edges p))
                    ≤ length (p_edges p))%nat).
  { induction (p_edges p) as [|e edges IH]; [done|].
    rewrite fmap_cons. cbn [concat]. rewrite length_app. simpl.
    pose proof (length_validateEdge (p_nodes p) e). lia. }
  repeat case_decide; simpl; lia.
Qed.

(** With no node at all, compilation fails with the two structural errors
    followed by one invalid-connection error for every edge, in order. *)
Theorem generateCodeFromPipeline_no_nodes (clock : Clock) edges pipelineName :
  generateCodeFromPipeline clock [] edges pipelineName
  = Return (failure ([missingInputMessage; missingOutputMessage]
                     ++ (invalidFlowConnectionMessage <$> edges))).
Proof.
  unfold generateCodeFromPipeline, generate, generateBody.
  set (p := buildPipeline clock [] edges (orElse pipelineName "Generated Pipeline")).
  assert (Hvalid : validatePipeline p
                   = [missingInputMessage; missingOutputMessage]
                     ++ (invalidFlowConnectionMessage <$> edges)).
  { unfold validatePipeline, p. simpl. do 2 f_equal.
    induction edges as [|e edges IH]; [done|]. rewrite !fmap_cons. cbn [concat].
    by rewrite IH. }
  rewrite Hvalid. done.
Qed.

(** ** [buildPipeline] and the compatibility rules *)

Lemma orString_nonempty o dflt : dflt ≠ "" → orString o dflt ≠ "".
Proof. intros Hd. unfold orString. destruct o as [s|]; [|done]. by case_decide. Qed.

(** What [buildPipeline] keeps and what it fills in: node ids and edge ends
    in the order given; each node's [data] repeats its id and category; no
    category, label, icon nor port name of an edge is left empty. *)
Theorem buildPipeline_shape (clock : Clock) nodes edges name :
  let p := buildPipeline clock nodes edges name in
  nodeIds p = fn_id <$> nodes
  ∧ e_source <$> p_edges p = fe_source <$> edges
  ∧ e_target <$> p_edges p = fe_target <$> edges
  ∧ Forall (λ node, d_id (n_data node) = n_id node
                    ∧ d_type (n_data node) = n_type node
                    ∧ d_type (n_data node) ≠ ""
                    ∧ d_label (n_data node) ≠ ""
                    ∧ d_icon (n_data node) ≠ "") (p_nodes p)
  ∧ Forall (λ edge, e_sourcePort edge ≠ "" ∧ e_targetPort edge ≠ ""
                    ∧ e_validated edge = true) (p_edges p).
Proof.
  intros p. unfold p, nodeIds. simpl. split_and!.
  - by rewrite <- list_fmap_compose.
  - by rewrite <- list_fmap_compose.
  - by rewrite <- list_fmap_compose.
  - apply Forall_fmap, Forall_true. intros node. simpl.
    split_and!; [done|done|by apply orString_nonempty..].
  - apply Forall_fmap, Forall_true. intros edge. simpl.
    split_and!; [by apply orString_nonempty..|done].
Qed.

(** In a pipeline built by [buildPipeline] that passes validation, an edge
    whose two ports resolve carries the type of its source port, and the
    target port accepts that type. *)
Theorem buildPipeline_edge_dataType (clock : Clock) nodes edges name edge
    sourceNode targetNode sourcePort targetPort :
  let p := buildPipeline clock nodes edges name in
  validatePipeline p = [] →
  edge ∈ p_edges p →
  findNode (p_nodes p) (e_source edge) = Some sourceNode →
  findNode (p_nodes p) (e_target edge) = Some targetNode →
  findPort (d_outputs (n_data sourceNode)) (e_sourceHandle edge) = Some sourcePort →
  findPort (d_inputs (n_data targetNode)) (e_targetHandle edge) = Some targetPort →
  e_dataType edge = port_dataType sourcePort
  ∧ isDataTypeCompatible (e_dataType edge) (port_dataType targetPort) = true.
Proof.
  intros p Hvalid He Hs Ht Hsp Htp.
  assert (Htype : e_dataType edge = port_dataType sourcePort).
  { unfold p in He. simpl in He.
    apply list_elem_of_fmap in He as (fe & -> & _). simpl in *.
    unfold inferDataType. fold (p_nodes p) in Hs. by rewrite Hs, Hsp. }
  split; [done|]. rewrite Htype.
  pose proof (validatePipeline_nil_edges p edge Hvalid He) as Hnil.
  apply validateEdge_nil_iff in Hnil as (s & t & Hs' & Ht' & Hports).
  rewrite Hs in Hs'. rewrite Ht in Ht'. injection Hs' as <-. injection Ht' as <-.
  by apply Hports.
Qed.

Lemma buildPipeline_edge_dataType_witness :
  let edge := buildEdge (p_nodes Sample.valid)
                (Sample.edge "edge1" "input1" "output1" (Some "text") (Some "text")) in
  validatePipeline Sample.valid = []
  ∧ edge ∈ p_edges Sample.valid
  ∧ e_dataType edge = TEXT
  ∧ isDataTypeCompatible (e_dataType edge) TEXT = true.
Proof.
  intros edge.
  assert (Hvalid : validatePipeline Sample.valid = []) by compute_done.
  assert (Hin : edge ∈ p_edges Sample.valid) by apply list_elem_of_here.
  split; [exact Hvalid|]. split; [exact Hin|].
  exact (buildPipeline_edge_dataType Sample.clock Sample.validNodes Sample.validEdges
           "Sample" edge (buildNode Sample.textInput) (buildNode Sample.textOutput)
           (Sample.port "text" TEXT) (Sample.port "text" TEXT)
           Hvalid Hin eq_refl eq_refl eq_refl eq_refl).
Defined.

(** The generator's compatibility relation: every type feeds itself, every
    type but EMBEDDINGS feeds TEXT, EMBEDDINGS feeds nothing else, and
    nothing but PDF feeds PDF. The relation is not transitive: PDF feeds
    TEXT and TEXT feeds CHUNKS, yet PDF does not feed CHUNKS. *)
Theorem isDataTypeCompatible_facts :
  (∀ t, isDataTypeCompatible t t = true)
  ∧ (∀ t, isDataTypeCompatible t TEXT = true ↔ t ≠ EMBEDDINGS)
  ∧ (∀ t, isDataTypeCompatible EMBEDDINGS t = true ↔ t = EMBEDDINGS)
  ∧ (∀ t, isDataTypeCompatible t PDF = true ↔ t = PDF)
  ∧ ¬ (∀ a b c, isDataTypeCompatible a b = true → isDataTypeCompatible b c = true →
                isDataTypeCompatible a c = true).
Proof.
  split_and!.
  - intros t. unfold isDataTypeCompatible. by rewrite decide_True.
  - intros []; split; (done || by intros []).
  - intros []; split; done.
  - intros []; split; done.
  - intros Htrans. by specialize (Htrans PDF TEXT CHUNKS eq_refl eq_refl).
Qed.

(** The canvas and the generator disagree on five pairs of types. The
    canvas lets the user draw EMBEDDINGS to JSON, BOOLEAN to JSON and
    NUMBER to JSON, which the generator's validator rejects; the validator
    would accept CHUNKS to TEXT and BOOLEAN to TEXT, which the canvas
    refuses to draw. On every other pair they agree. *)
Theorem canvas_generator_compatibility (sourceType targetType : DataType) :
  (validateDataTypeCompatibility sourceType targetType = true
   ∧ isDataTypeCompatible sourceType targetType = false
   ↔ (sourceType, targetType) ∈ [(EMBEDDINGS, JSON); (BOOLEAN, JSON); (NUMBER, JSON)])
  ∧ (validateDataTypeCompatibility sourceType targetType = false
     ∧ isDataTypeCompatible sourceType targetType = true
     ↔ (sourceType, targetType) ∈ [(CHUNKS, TEXT); (BOOLEAN, TEXT)]).
Proof.
  destruct sourceType, targetType; split; split;
    first [ by intros [? ?] | intros _; compute_done | intros H; exfalso; revert H; compute_done ].
Qed.

(** ** Further properties of the emitter and of [generate] *)

Lemma mapM_returns {A B} (f : A → Exc B) (l : list A) :
  (∃ ys, mapM f l = Return ys) ↔ ∀ x, x ∈ l → ∃ y, f x = Return y.
Proof.
  induction l as [|a l IH]; simpl.
  - split; [intros _ x []%elem_of_nil|eauto].
  - split.
    + intros (ys & Hm) x Hx.
      destruct (f a) as [b|] eqn:Hfa; simpl in Hm; [|done].
      destruct (mapM f l) as [bs|] eqn:Hl; simpl in Hm; [|done].
      apply elem_of_cons in Hx as [->|Hx]; [eauto|].
      apply (proj1 IH); eauto.
    + intros Hall. destruct (Hall a) as [b ->]; [by left|]. simpl.
      destruct (proj2 IH) as [bs ->]; [|simpl; eauto].
      intros x Hx. apply Hall. by right.
Qed.

(** A throwing [map] stops at the first element that throws. *)
Lemma mapM_first_throw {A B} (f : A → Exc B) before x after message :
  (∀ y, y ∈ before → ∃ z, f y = Return z) → f x = Throw message →
  mapM f (before ++ x :: after) = Throw message.
Proof.
  intros Hbefore Hx. induction before as [|a before IH]; simpl.
  - by rewrite Hx.
  - destruct (Hbefore a) as [b ->]; [by left|]. simpl.
    rewrite IH; [done|]. intros y Hy. apply Hbefore. by right.
Qed.

Lemma formatConfigEntry_returns entry :
  (∃ text, formatConfigEntry entry = Return text) ↔ rendersValue entry.2 = true.
Proof.
  destruct entry as [key [s|text|b|[json|msg]]]; simpl; split; eauto; try done.
  by intros [? ?].
Qed.

Lemma formatConfigMap_returns config :
  (∃ text, formatConfigMap config = Return text) ↔ renderable config.
Proof.
  unfold formatConfigMap, renderable. rewrite Forall_forall. split.
  - intros (text & Hm) entry Hin.
    destruct (mapM formatConfigEntry config) as [entries|] eqn:Hentries; [|done].
    apply formatConfigEntry_returns.
    apply (proj1 (mapM_returns formatConfigEntry config)); [eauto|done].
  - intros Hall.
    destruct (proj2 (mapM_returns formatConfigEntry config)) as [entries ->].
    + intros entry Hin. by apply formatConfigEntry_returns, Hall.
    + simpl. eauto.
Qed.

Lemma nodeConfiguration_returns (node : PipelineNode) :
  (∃ text, nodeConfiguration node = Return text)
  ↔ renderable (d_config (n_data node)).
Proof.
  rewrite <- formatConfigMap_returns. unfold nodeConfiguration. split.
  - intros (text & H). destruct (formatConfigMap _) as [entries|]; [eauto|done].
  - intros (entries & ->). simpl. eauto.
Qed.

Lemma generateNodeConfigurations_returns (p : Pipeline) :
  (∃ text, generateNodeConfigurations p = Return text)
  ↔ Forall (λ node, renderable (d_config (n_data node))) (p_nodes p).
Proof.
  unfold generateNodeConfigurations. rewrite Forall_forall. split.
  - intros (text & H) node Hin.
    destruct (mapM nodeConfiguration (p_nodes p)) as [configs|] eqn:Hconfigs; [|done].
    apply nodeConfiguration_returns.
    apply (proj1 (mapM_returns nodeConfiguration (p_nodes p))); [eauto|done].
  - intros Hall.
    destruct (proj2 (mapM_returns nodeConfiguration (p_nodes p))) as [configs ->].
    + intros node Hin. by apply nodeConfiguration_returns, Hall.
    + simpl. eauto.
Qed.

(** After validation every scheduled id is a declared node. *)
Lemma scheduled_declared (p : Pipeline) order x :
  validatePipeline p = [] → topologicalSort p = Some order → x ∈ order →
  ∃ node, findNode (p_nodes p) x = Some node.
Proof.
  intros Hdeclared%validatePipeline_nil_edgesDeclared Hsort Hx.
  destruct (topologicalSort_Some p order Hsort) as (_ & _ & _ & _ & Hanc).
  assert (Hid : x ∈ nodeIds p).
  { destruct (Hanc x Hx) as (y & Hy & [->|(e & He & <-)]%rtc_feeds_source); [done|].
    by apply Hdeclared. }
  destruct (findNode (p_nodes p) x) as [node|] eqn:Hfind; [eauto|].
  by apply findNode_None in Hfind.
Qed.

(** The non-null assertions on [find] hold: after validation and
    scheduling, the class body and the execution sequence are emitted
    without an exception. *)
Lemma generateClassBody_returns (p : Pipeline) order :
  validatePipeline p = [] → topologicalSort p = Some order →
  ∃ text, generateClassBody p order = Return text.
Proof.
  intros Hvalid Hsort. unfold generateClassBody.
  destruct (proj2 (mapM_returns (classBodyEntry p) order)) as [methods ->].
  - intros x Hx. destruct (scheduled_declared p order x Hvalid Hsort Hx) as [node Hnode].
    unfold classBodyEntry. rewrite Hnode. eauto.
  - simpl. eauto.
Qed.

Lemma generateExecutionSequence_returns (p : Pipeline) order :
  validatePipeline p = [] → topologicalSort p = Some order →
  ∃ text, generateExecutionSequence p order = Return text.
Proof.
  intros Hvalid Hsort. unfold generateExecutionSequence.
  destruct (proj2 (mapM_returns (executionSequenceEntry p) order)) as [calls ->].
  - intros x Hx. destruct (scheduled_declared p order x Hvalid Hsort Hx) as [node Hnode].
    unfold executionSequenceEntry. rewrite Hnode. eauto.
  - simpl. eauto.
Qed.

(** A compilation succeeds exactly when the pipeline passes validation, the
    scheduler returns an order and every configuration value of every node
    can be written out; nothing else makes it fail. *)
Theorem generate_success_iff (p : Pipeline) generatedAt :
  (∃ r, generate p generatedAt = Return r ∧ success r = true)
  ↔ validatePipeline p = []
    ∧ is_Some (topologicalSort p)
    ∧ Forall (λ node, renderable (d_config (n_data node))) (p_nodes p).
Proof.
  split.
  - intros (r & Hr & Hsuccess).
    destruct (success_emitted _ _ _ Hr Hsuccess)
      as (order & code & Hvalid & Hsort & Hcode & _).
    split_and!; [done|by rewrite Hsort|].
    apply generateNodeConfigurations_returns.
    unfold generateKotlinCode in Hcode.
    destruct (generateClassBody p order) as [classBody|]; simpl in Hcode; [|done].
    destruct (generateNodeConfigurations p) as [configs|]; [eauto|done].
  - intros (Hvalid & [order Hsort] & Hconfigs).
    destruct (generateClassBody_returns p order Hvalid Hsort) as [classBody Hbody].
    destruct (proj2 (generateNodeConfigurations_returns p) Hconfigs) as [configs Hcfg].
    destruct (generateExecutionSequence_returns p order Hvalid Hsort) as [calls Hcalls].
    eexists. split.
    + apply (generate_emitted p generatedAt order); [done|done|].
      unfold generateKotlinCode. rewrite Hbody, Hcfg, Hcalls. reflexivity.
    + done.
Qed.

(** When a configuration value cannot be written out, the compilation of a
    pipeline that passed validation and scheduling fails with the message of
    the first such value, nodes taken in declaration order and the entries
    of a node in their order. *)
Theorem generate_config_error (p : Pipeline) generatedAt
    before node after pre key message post :
  validatePipeline p = [] → is_Some (topologicalSort p) →
  p_nodes p = before ++ node :: after →
  Forall (λ earlier, renderable (d_config (n_data earlier))) before →
  d_config (n_data node) = pre ++ (key, VOther (Throw message)) :: post →
  renderable pre →
  generate p generatedAt
  = Return (failure ["Code generation failed: " +:+ message]).
Proof.
  intros Hvalid [order Hsort] Hnodes Hbefore Hconfig Hpre.
  destruct (generateClassBody_returns p order Hvalid Hsort) as [classBody Hbody].
  assert (Hnode : nodeConfiguration node = Throw message).
  { unfold nodeConfiguration, formatConfigMap. rewrite Hconfig.
    rewrite (mapM_first_throw formatConfigEntry pre _ post message); [done| |done].
    intros entry Hin. apply formatConfigEntry_returns.
    by apply (proj1 (Forall_forall _ _) Hpre). }
  assert (Hconfigs : generateNodeConfigurations p = Throw message).
  { unfold generateNodeConfigurations. rewrite Hnodes.
    rewrite (mapM_first_throw nodeConfiguration before node after message); [done| |done].
    intros earlier Hin. apply nodeConfiguration_returns.
    by apply (proj1 (Forall_forall _ _) Hbefore). }
  unfold generate, generateBody. rewrite Hvalid, Hsort. simpl.
  unfold generateKotlinCode. by rewrite Hbody, Hconfigs.
Qed.

Lemma generate_config_error_witness :
  let p := buildPipeline Sample.clock Sample.cyclicConfigNodes Sample.validEdges
             "Generated Pipeline" in
  validatePipeline p = [] ∧ is_Some (topologicalSort p)
  ∧ generate p (clk_generatedAt Sample.clock)
    = Return (failure ["Code generation failed: Converting circular structure to JSON"]).
Proof.
  intros p.
  assert (Hvalid : validatePipeline p = []) by compute_done.
  assert (Hsort : is_Some (topologicalSort p)) by (eexists; reflexivity).
  split; [exact Hvalid|]. split; [exact Hsort|].
  exact (generate_config_error p (clk_generatedAt Sample.clock) []
           (buildNode
              {| fn_id := "input1"; fn_type := Some "input";
                 fn_label := Some "Text Input"; fn_description := None;
                 fn_icon := None; fn_inputs := Some [];
                 fn_outputs := Some [Sample.port "text" TEXT];
                 fn_config := Some [("self", Sample.selfReferencing)] |})
           [buildNode Sample.textOutput]
           [] "self" "Converting circular structure to JSON" []
           Hvalid Hsort eq_refl (Forall_nil_2 _) eq_refl (Forall_nil_2 _)).
Defined.

(** The result of [generate] is all or nothing: it is a success exactly
    when it has no error, exactly when it has Kotlin text, exactly when it
    has a build file; and a failed compilation carries no warning. *)
Theorem generate_result_shape (p : Pipeline) generatedAt :
  ∃ r, generate p generatedAt = Return r
    ∧ (success r = true ↔ errors r = [])
    ∧ (success r = true ↔ is_Some (kotlinCode r))
    ∧ (success r = true ↔ is_Some (buildGradle r))
    ∧ (success r = false → warnings r = []).
Proof.
  destruct (generate_cases p generatedAt) as (r & Hr & Hcase).
  exists r. split; [done|].
  destruct Hcase as [Hinvalid| | |]; simpl;
    split_and!; try done; try (split; [done|by intros [? ?]]); try (split; eauto; done).
Qed.

(** ** The emitted text *)

(** The pieces of a generated text. *)
Lemma generateKotlinCode_parts (p : Pipeline) generatedAt order code :
  generateKotlinCode p generatedAt order = Return code →
  ∃ methods configs calls,
    mapM (classBodyEntry p) order = Return methods
    ∧ mapM nodeConfiguration (p_nodes p) = Return configs
    ∧ mapM (executionSequenceEntry p) order = Return calls
    ∧ (∀ method, method ∈ methods → occursIn method code)
    ∧ (∀ config, config ∈ configs → occursIn config code)
    ∧ (∀ call, call ∈ calls → occursIn call code).
Proof.
  unfold generateKotlinCode, generateClassBody, generateNodeConfigurations,
    generateExecutionSequence.
  intros Hcode.
  destruct (mapM (classBodyEntry p) order) as [methods|]; simpl in Hcode; [|done].
  destruct (mapM nodeConfiguration (p_nodes p)) as [configs|]; simpl in Hcode; [|done].
  destruct (mapM (executionSequenceEntry p) order) as [calls|]; simpl in Hcode; [|done].
  injection Hcode as <-. exists methods, configs, calls.
  split_and!; [done|done|done| | |].
  - intros method Hin.
    apply (occursIn_trans _ (join (nl +:+ nl) methods)); [by apply occursIn_join|].
    apply occursIn_join. unfold kotlinTemplateLines.
    do 44 apply list_elem_of_further. apply list_elem_of_here.
  - intros config Hin.
    apply (occursIn_trans _ (join nl configs)); [by apply occursIn_join|].
    apply occursIn_join. unfold kotlinTemplateLines.
    do 41 apply list_elem_of_further. apply list_elem_of_here.
  - intros call Hin.
    apply (occursIn_trans _ (join (nl +:+ nl) calls)); [by apply occursIn_join|].
    apply occursIn_join. unfold kotlinTemplateLines.
    do 60 apply list_elem_of_further. apply list_elem_of_here.
Qed.

(** In the text of a successful compilation every declared node has its
    method, a call of that method in [executePipeline], and its line in
    [setupNodeConfigurations]. *)
Theorem generate_emits_node (p : Pipeline) generatedAt r node :
  generate p generatedAt = Return r → success r = true →
  findNode (p_nodes p) (n_id node) = Some node →
  ∃ code, kotlinCode r = Some code
    ∧ occursIn ("    private fun " +:+ methodNameOf (n_id node) +:+ "() {") code
    ∧ occursIn ("            " +:+ methodNameOf (n_id node) +:+ "()") code
    ∧ occursIn ("        nodeConfigs[" +:+ dq +:+ n_id node +:+ dq +:+ "] = mapOf(") code.
Proof.
  intros Hr Hsuccess Hfind.
  destruct (success_emitted _ _ _ Hr Hsuccess)
    as (order & code & Hvalid & Hsort & Hcode & ->).
  exists code. split; [done|].
  destruct (generateKotlinCode_parts _ _ _ _ Hcode)
    as (methods & configs & calls & Hmethods & Hconfigs & Hcalls & Hm & Hc & Hs).
  destruct (findNode_Some _ _ _ Hfind) as [Hin _].
  destruct (topologicalSort_Some p order Hsort) as (_ & _ & _ & Hall & _).
  assert (Hscheduled : n_id node ∈ order).
  { apply Hall. by apply list_elem_of_fmap_2. }
  split_and!.
  - destruct (mapM_Return _ _ _ _ Hmethods Hscheduled) as (method & Hentry & Hmethod).
    unfold classBodyEntry in Hentry. rewrite Hfind in Hentry. injection Hentry as <-.
    eapply occursIn_trans; [|by apply Hm].
    apply occursIn_join.
    do 4 apply list_elem_of_further. apply list_elem_of_here.
  - destruct (mapM_Return _ _ _ _ Hcalls Hscheduled) as (call & Hentry & Hcall).
    unfold executionSequenceEntry in Hentry. rewrite Hfind in Hentry.
    injection Hentry as <-.
    eapply occursIn_trans; [|by apply Hs].
    apply occursIn_join. apply list_elem_of_further, list_elem_of_here.
  - destruct (mapM_Return _ _ _ _ Hconfigs Hin) as (config & Hentry & Hconfig).
    unfold nodeConfiguration in Hentry.
    destruct (formatConfigMap _) as [entries|]; simpl in Hentry; [|done].
    injection Hentry as <-.
    eapply occursIn_trans; [|by apply Hc].
    exists "", (entries +:+ ")"). by rewrite !append_assoc.
Qed.

Lemma generate_emits_node_witness :
  let node := buildNode Sample.textOutput in
  ∃ r code,
    generate Sample.valid (clk_generatedAt Sample.clock) = Return r
    ∧ success r = true
    ∧ findNode (p_nodes Sample.valid) (n_id node) = Some node
    ∧ kotlinCode r = Some code
    ∧ occursIn "    private fun executeNode_output1() {" code
    ∧ occursIn "            executeNode_output1()" code
    ∧ occursIn ("        nodeConfigs[" +:+ dq +:+ "output1" +:+ dq +:+ "] = mapOf(") code.
Proof.
  intros node. eexists.
  destruct (generate_emits_node Sample.valid (clk_generatedAt Sample.clock) _ node
              eq_refl eq_refl eq_refl) as (code & Hcode & Hmethod & Hcall & Hconfig).
  exists code. split_and!; [reflexivity|reflexivity|reflexivity|exact Hcode
                          |exact Hmethod|exact Hcall|exact Hconfig].
Defined.

Lemma findPort_Some ports handle port :
  findPort ports handle = Some port → port ∈ ports ∧ handle = Some (port_id port).
Proof.
  intros [Hin Hid]%find_some. split; [by apply list_elem_of_In|].
  by apply bool_decide_eq_true in Hid.
Qed.

(** Variable binding across an edge whose source port resolves: the method
    of the target node reads [nodeOutputs] at the very key under which the
    method of the source node stores that port's result. *)
Theorem generateNodeMethod_binding (p : Pipeline) edge sourceNode targetNode port :
  edge ∈ p_edges p →
  findNode (p_nodes p) (e_source edge) = Some sourceNode →
  findNode (p_nodes p) (e_target edge) = Some targetNode →
  findPort (d_outputs (n_data sourceNode)) (e_sourceHandle edge) = Some port →
  port_id port ≠ "" →
  let key := outputKey (n_id sourceNode) (port_id port) in
  occursIn ("nodeOutputs[" +:+ dq +:+ key +:+ dq +:+ "] = " +:+ port_id port +:+ "Result")
    (generateNodeMethod p sourceNode)
  ∧ occursIn ("= nodeOutputs[" +:+ dq +:+ key +:+ dq +:+ "]")
      (generateNodeMethod p targetNode).
Proof.
  intros He Hs Ht Hport Hid key.
  destruct (findNode_Some _ _ _ Hs) as [_ Hsid].
  destruct (findNode_Some _ _ _ Ht) as [_ Htid].
  destruct (findPort_Some _ _ _ Hport) as [Hin Hhandle].
  split.
  - apply (occursIn_trans _ (outputAssignment sourceNode port)).
    + unfold outputAssignment, key, outputKey.
      exists "        ", "". rewrite append_nil_r, !append_assoc. reflexivity.
    + apply (occursIn_trans _
               (join nl (outputAssignment sourceNode <$> d_outputs (n_data sourceNode)))).
      * apply occursIn_join. by apply list_elem_of_fmap_2.
      * apply occursIn_join.
        do 15 apply list_elem_of_further. apply list_elem_of_here.
  - apply (occursIn_trans _ (inputMapping edge)).
    + assert (orString (Some (port_id port)) "output" = port_id port) as Hor.
      { unfold orString. by rewrite decide_False. }
      unfold inputMapping, key, outputKey. cbv zeta. rewrite Hhandle, Hsid, Hor.
      exists ("        val " +:+ orString (e_targetHandle edge) "input" +:+ " "), "".
      rewrite append_nil_r, !append_assoc. reflexivity.
    + apply (occursIn_trans _ (join nl (inputMapping <$> inputConnectionsOf p targetNode))).
      * apply occursIn_join. apply list_elem_of_fmap_2.
        apply list_elem_of_filter. by split.
      * apply occursIn_join.
        do 9 apply list_elem_of_further. apply list_elem_of_here.
Qed.

Lemma generateNodeMethod_binding_witness :
  occursIn ("nodeOutputs[" +:+ dq +:+ "input1_text" +:+ dq +:+ "] = textResult")
    (generateNodeMethod Sample.valid (buildNode Sample.textInput))
  ∧ occursIn ("= nodeOutputs[" +:+ dq +:+ "input1_text" +:+ dq +:+ "]")
      (generateNodeMethod Sample.valid (buildNode Sample.textOutput)).
Proof.
  eapply (generateNodeMethod_binding Sample.valid _ (buildNode Sample.textInput)
            (buildNode Sample.textOutput) (Sample.port "text" TEXT)).
  - apply list_elem_of_here.
  - reflexivity.
  - reflexivity.
  - reflexivity.
  - discriminate.
Defined.

(** [extractFinalOutputs] reads, for every output node, the key made of
    the node id and the id of its first output port ([output] when it has
    none or the id is empty); when that port exists with a non-empty id, it
    is a key the method of the node stores. *)
Theorem generateOutputExtraction_key (p : Pipeline) node :
  node ∈ p_nodes p → d_type (n_data node) = NodeType.OUTPUT →
  let portId := orString (port_id <$> head (d_outputs (n_data node))) "output" in
  let key := outputKey (n_id node) portId in
  occursIn ("] = nodeOutputs[" +:+ dq +:+ key +:+ dq +:+ "] ?: " +:+ dq +:+ dq)
    (generateOutputExtraction p)
  ∧ (∀ port, head (d_outputs (n_data node)) = Some port → port_id port ≠ "" →
       occursIn ("nodeOutputs[" +:+ dq +:+ key +:+ dq +:+ "] = " +:+ portId +:+ "Result")
         (generateNodeMethod p node)).
Proof.
  intros Hin Htype portId key. split.
  - apply (occursIn_trans _ (outputExtractionEntry node)).
    + unfold outputExtractionEntry, key, outputKey, portId. cbv zeta.
      exists ("        finalOutputs[" +:+ dq +:+ d_label (n_data node) +:+ dq), "".
      rewrite append_nil_r, !append_assoc. reflexivity.
    + apply occursIn_join. apply list_elem_of_fmap_2.
      unfold nodesOfType. by apply list_elem_of_filter.
  - intros port Hhead Hid.
    assert (portId = port_id port) as Hport.
    { unfold portId. rewrite Hhead. simpl. unfold orString. by rewrite decide_False. }
    apply (occursIn_trans _ (outputAssignment node port)).
    + unfold outputAssignment, key, outputKey. rewrite Hport.
      exists "        ", "". rewrite append_nil_r, !append_assoc. reflexivity.
    + apply (occursIn_trans _
               (join nl (outputAssignment node <$> d_outputs (n_data node)))).
      * apply occursIn_join. apply list_elem_of_fmap_2.
        destruct (d_outputs (n_data node)) as [|first rest]; [done|].
        injection Hhead as ->. apply list_elem_of_here.
      * apply occursIn_join.
        do 15 apply list_elem_of_further. apply list_elem_of_here.
Qed.

Lemma generateOutputExtraction_key_witness :
  let node :=
    buildNode (Sample.node "output1" "output" "Text Output"
                 [Sample.port "text" TEXT] [Sample.port "result" TEXT]) in
  let p := Sample.build [Sample.textInput; Sample.node "output1" "output" "Text Output"
                           [Sample.port "text" TEXT] [Sample.port "result" TEXT]]
             Sample.validEdges in
  occursIn ("] = nodeOutputs[" +:+ dq +:+ "output1_result" +:+ dq +:+ "] ?: " +:+ dq +:+ dq)
    (generateOutputExtraction p)
  ∧ occursIn ("nodeOutputs[" +:+ dq +:+ "output1_result" +:+ dq +:+ "] = resultResult")
      (generateNodeMethod p node).
Proof.
  intros node p.
  destruct (generateOutputExtraction_key p node) as [Hread Hstore].
  - apply list_elem_of_further, list_elem_of_here.
  - reflexivity.
  - split; [exact Hread|].
    apply (Hstore (Sample.port "result" TEXT)); [reflexivity|discriminate].
Defined.

Lemma append_inj_l (s a b : string) : s +:+ a = s +:+ b → a = b.
Proof.
  induction s as [|ch s IH]; [done|]. rewrite !append_cons. intros H.
  injection H as H. by apply IH.
Qed.

Lemma isAlnum_underscore : isAlnum underscore = false.
Proof. reflexivity. Qed.

(** The method name of a node id is [executeNode_] followed by letters,
    digits and underscores only; two ids get the same method name exactly
    when they have the same length and agree at every position where
    either has a letter or a digit. *)
Theorem methodNameOf_collision (a b : string) :
  allChars (λ c, isAlnum c || bool_decide (c = underscore)) (replaceNonAlnum a) = true
  ∧ (methodNameOf a = methodNameOf b ↔ sameAlphanumerics a b).
Proof.
  split.
  - induction a as [|x a IH]; [done|]. simpl. rewrite IH, andb_true_r.
    destruct (isAlnum x) eqn:Hx; [by rewrite Hx|].
    rewrite isAlnum_underscore. by apply bool_decide_eq_true.
  - unfold methodNameOf. split.
    + intros H%append_inj_l. revert b H.
      induction a as [|x a IH]; intros [|y b] H; simpl in *; try done.
      injection H as Hhead Htail. split; [|by apply IH].
      destruct (isAlnum x) eqn:Hx, (isAlnum y) eqn:Hy.
      * by left.
      * subst x. by rewrite isAlnum_underscore in Hx.
      * subst y. by rewrite isAlnum_underscore in Hy.
      * by right.
    + intros H. f_equal. revert b H.
      induction a as [|x a IH]; intros [|y b] H; simpl in *; try done.
      destruct H as [Hhead Htail]. rewrite (IH b Htail). f_equal.
      destruct Hhead as [->|[-> ->]]; done.
Qed.

Lemma join_merge sep x y before after :
  join sep (before ++ (x +:+ sep +:+ y) :: after) = join sep (before ++ x :: y :: after).
Proof.
  induction before as [|z before IH].
  - simpl app. rewrite join_cons_cons. destruct after as [|w after].
    + done.
    + rewrite !join_cons_cons, !append_assoc. done.
  - destruct before as [|w before].
    + simpl app in *. rewrite !(join_cons_cons sep z). by rewrite IH.
    + simpl app in *. rewrite !(join_cons_cons sep z). by rewrite IH.
Qed.

Lemma mapM_append {A B} (f : A → Exc B) (l k : list A) :
  mapM f (l ++ k) = ys ← mapM f l; zs ← mapM f k; Return (ys ++ zs).
Proof.
  induction l as [|a l IH]; simpl.
  - by destruct (mapM f k).
  - destruct (f a) as [b|]; simpl; [|done]. rewrite IH.
    destruct (mapM f l) as [bs|]; simpl; [|done].
    by destruct (mapM f k).
Qed.

(** [formatConfigMap] writes string values between double quotes without
    escaping them: one entry whose value contains the text that separates
    two entries is emitted exactly as those two entries. *)
Theorem formatConfigMap_not_escaped (before after : Config) (key value key' value' : string) :
  formatConfigMap
    (before
     ++ (key, VString (value +:+ dq +:+ ", " +:+ dq +:+ key' +:+ dq +:+ " to " +:+ dq +:+ value'))
     :: after)
  = formatConfigMap (before ++ (key, VString value) :: (key', VString value') :: after).
Proof.
  unfold formatConfigMap. rewrite !mapM_append.
  destruct (mapM formatConfigEntry before) as [entries|]; simpl; [|done].
  destruct (mapM formatConfigEntry after) as [rest|]; simpl; [|done].
  f_equal.
  rewrite <- (join_merge ", " (dq +:+ key +:+ dq +:+ " to " +:+ dq +:+ value +:+ dq)
                (dq +:+ key' +:+ dq +:+ " to " +:+ dq +:+ value' +:+ dq)).
  by rewrite !append_assoc.
Qed.

(** ** What the application shows *)

Lemma generateKotlinCode_nonempty (p : Pipeline) generatedAt order code :
  generateKotlinCode p generatedAt order = Return code → code ≠ "".
Proof.
  unfold generateKotlinCode. intros Hcode.
  destruct (generateClassBody p order); simpl in Hcode; [|done].
  destruct (generateNodeConfigurations p); simpl in Hcode; [|done].
  destruct (generateExecutionSequence p order); simpl in Hcode; [|done].
  injection Hcode as <-. unfold kotlinTemplate, lines, kotlinTemplateLines.
  rewrite join_cons_cons. discriminate.
Qed.

(** What the application shows after [Generate], when the call of
    [generateCodeFromPipeline] returns ([handleGenerate] has no [try] of
    its own): the generated source text itself when the compilation
    succeeded; otherwise a report that lists every error on a line of its
    own behind a dash, states the validation status as failed and says
    that no code was generated. *)
Theorem handleGenerate_shows (clock : Clock) currentPipeline nodes edges r :
  generateCodeFromPipeline clock nodes edges (Some currentPipeline) = Return r →
  ∃ shown,
    handleGenerate clock currentPipeline nodes edges = Return shown
    ∧ (success r = true → kotlinCode r = Some shown)
    ∧ (success r = false →
         errors r ≠ []
         ∧ shown = errorCode nodes edges r
         ∧ (∀ err, err ∈ errors r → occursIn ("- " +:+ err) shown)
         ∧ occursIn "// Validation Status: FAILED" shown
         ∧ occursIn "// No code generated due to errors" shown).
Proof.
  unfold handleGenerate. intros Hr. rewrite Hr. simpl.
  unfold generateCodeFromPipeline in Hr. simpl orElse in Hr.
  set (p := buildPipeline clock nodes edges currentPipeline) in Hr.
  destruct (generate_cases p (clk_generatedAt clock)) as (r' & Hr' & Hcase).
  rewrite Hr in Hr'. injection Hr' as <-.
  assert (Hfailure : ∀ diagnostics, diagnostics ≠ [] →
    ∃ shown,
      (if success (failure diagnostics)
          && bool_decide (orString (kotlinCode (failure diagnostics)) "" ≠ "")
       then Return (orString (kotlinCode (failure diagnostics)) "")
       else Return (errorCode nodes edges (failure diagnostics))) = Return shown
      ∧ (success (failure diagnostics) = true → kotlinCode (failure diagnostics) = Some shown)
      ∧ (success (failure diagnostics) = false →
           errors (failure diagnostics) ≠ []
           ∧ shown = errorCode nodes edges (failure diagnostics)
           ∧ (∀ err, err ∈ errors (failure diagnostics) → occursIn ("- " +:+ err) shown)
           ∧ occursIn "// Validation Status: FAILED" shown
           ∧ occursIn "// No code generated due to errors" shown)).
  { intros diagnostics Hne. simpl. eexists. split; [done|]. split; [done|].
    intros _. split_and!; [done|done| | |].
    - intros err Hin.
      apply (occursIn_trans _ (join nl ((λ err, "- " +:+ err) <$> diagnostics))).
      + apply occursIn_join. by apply (list_elem_of_fmap_2 (λ err, "- " +:+ err)).
      + apply occursIn_join. unfold errorCode. simpl.
        do 4 apply list_elem_of_further. apply list_elem_of_here.
    - apply occursIn_join. do 15 apply list_elem_of_further. apply list_elem_of_here.
    - apply occursIn_join. do 17 apply list_elem_of_further. apply list_elem_of_here. }
  destruct Hcase as [Hv|Hv Hs|order message Hv Hs Hcode Hbody|order code Hv Hs Hcode].
  - by apply Hfailure.
  - by apply Hfailure.
  - by apply Hfailure.
  - pose proof (generateKotlinCode_nonempty _ _ _ _ Hcode) as Hne.
    exists code. unfold orString. simpl.
    rewrite !decide_False by done. rewrite bool_decide_eq_true_2 by done.
    split_and!; done.
Qed.

(** The theorem on a PDF output wired to a number input: the report names
    the type error. *)
Lemma handleGenerate_shows_witness :
  ∃ shown,
    handleGenerate Sample.clock "Sample" [Sample.pdfInput; Sample.numberOutput]
      [Sample.edge "edge1" "input1" "output1" (Some "pdf") (Some "number")]
    = Return shown
    ∧ occursIn "- Incompatible data types: pdf -> number (PDF Input -> Number Output)"
        shown
    ∧ occursIn "// Validation Status: FAILED" shown.
Proof.
  destruct (handleGenerate_shows Sample.clock "Sample"
              [Sample.pdfInput; Sample.numberOutput]
              [Sample.edge "edge1" "input1" "output1" (Some "pdf") (Some "number")]
              _ eq_refl) as (shown & Hshown & _ & Hreport).
  exists shown. split; [exact Hshown|].
  destruct (Hreport eq_refl) as (_ & _ & Herrors & Hstatus & _).
  split; [|exact Hstatus].
  apply Herrors. apply list_elem_of_here.
Defined.

(** ** Edges drawn on the canvas *)

Lemma findNode_fmap (f : PipelineNode → PipelineNode) nodes id :
  (∀ node, n_id (f node) = n_id node) →
  findNode (f <$> nodes) id = f <$> findNode nodes id.
Proof.
  intros Hid. unfold findNode. induction nodes as [|node nodes IH]; [done|].
  simpl. rewrite Hid. by destruct (bool_decide (n_id node = id)).
Qed.

(** An edge that the canvas lets the user draw has both nodes and both
    ports resolved and carries the type of its source port. Compiled with
    the same nodes, it is never reported as an invalid connection; the
    validator rejects it as a type error exactly when it joins embeddings,
    boolean or number to json, which the canvas accepts and the generator
    does not. *)
Theorem onConnect_validated (now : Z) nodes params newEdge :
  onConnect now nodes params = Connected newEdge →
  ∃ sourceNode targetNode sourcePort targetPort,
    findNode nodes (c_source params) = Some sourceNode
    ∧ findNode nodes (c_target params) = Some targetNode
    ∧ findPort (d_outputs (n_data sourceNode)) (c_sourceHandle params) = Some sourcePort
    ∧ findPort (d_inputs (n_data targetNode)) (c_targetHandle params) = Some targetPort
    ∧ validateDataTypeCompatibility (port_dataType sourcePort) (port_dataType targetPort) = true
    ∧ e_dataType newEdge = port_dataType sourcePort
    ∧ let built := buildNode <$> (flowNodeOf <$> nodes) in
      let edge := buildEdge built (flowEdgeOf newEdge) in
      e_dataType edge = port_dataType sourcePort
      ∧ validateEdge built edge =
          (if isDataTypeCompatible (port_dataType sourcePort) (port_dataType targetPort)
           then []
           else [incompatibleMessage (port_dataType sourcePort) (port_dataType targetPort)
                   (d_label (n_data (buildNode (flowNodeOf sourceNode))))
                   (d_label (n_data (buildNode (flowNodeOf targetNode))))])
      ∧ (validateEdge built edge ≠ []
         ↔ (port_dataType sourcePort, port_dataType targetPort)
             ∈ [(EMBEDDINGS, JSON); (BOOLEAN, JSON); (NUMBER, JSON)]).
Proof.
  unfold onConnect. intros Hconnect.
  destruct (findNode nodes (c_source params)) as [sourceNode|] eqn:Hs; [|done].
  destruct (findNode nodes (c_target params)) as [targetNode|] eqn:Ht; [|done].
  destruct (findPort _ (c_sourceHandle params)) as [sourcePort|] eqn:Hsp; [|done].
  destruct (findPort _ (c_targetHandle params)) as [targetPort|] eqn:Htp; [|done].
  destruct (validateDataTypeCompatibility _ _) eqn:Hcanvas; [|done].
  injection Hconnect as <-.
  exists sourceNode, targetNode, sourcePort, targetPort.
  do 6 (split; [done|]).
  set (built := buildNode <$> (flowNodeOf <$> nodes)).
  set (edge := buildEdge built _).
  assert (Hbuilt : ∀ id, findNode built id = (buildNode ∘ flowNodeOf) <$> findNode nodes id).
  { intros id. unfold built. rewrite <- list_fmap_compose.
    by apply findNode_fmap. }
  assert (Hedge : validateEdge built edge =
    (if isDataTypeCompatible (port_dataType sourcePort) (port_dataType targetPort)
     then []
     else [incompatibleMessage (port_dataType sourcePort) (port_dataType targetPort)
             (d_label (n_data (buildNode (flowNodeOf sourceNode))))
             (d_label (n_data (buildNode (flowNodeOf targetNode))))])).
  { unfold validateEdge, edge. simpl. rewrite !Hbuilt, Hs, Ht. simpl.
    by rewrite Hsp, Htp. }
  split_and!.
  - unfold edge, buildEdge, inferDataType. simpl. rewrite Hbuilt, Hs. simpl.
    by rewrite Hsp.
  - exact Hedge.
  - rewrite Hedge. clear -Hcanvas.
    destruct (port_dataType sourcePort), (port_dataType targetPort);
      first [ done
            | split; [intros H; exfalso; apply H; reflexivity
                     |intros H; exfalso; revert H; compute_done]
            | split; [intros _; compute_done|intros _; discriminate] ].
Qed.

Lemma onConnect_validated_witness :
  ∃ sourcePort targetPort,
    validateDataTypeCompatibility (port_dataType sourcePort) (port_dataType targetPort) = true
    ∧ (port_dataType sourcePort, port_dataType targetPort)
        ∈ [(EMBEDDINGS, JSON); (BOOLEAN, JSON); (NUMBER, JSON)].
Proof.
  destruct (onConnect_validated 1750303841720
              [buildNode (Sample.node "count1" "logic" "Counter" []
                            [Sample.port "count" NUMBER]);
               buildNode (Sample.node "output1" "output" "Json Output"
                            [Sample.port "json" JSON] [])]
              {| c_source := "count1"; c_target := "output1";
                 c_sourceHandle := Some "count"; c_targetHandle := Some "json" |}
              _ eq_refl)
    as (sourceNode & targetNode & sourcePort & targetPort & Hs & Ht & Hsp & Htp
        & Hcanvas & _ & _ & _ & Hrejected).
  exists sourcePort, targetPort. split; [exact Hcanvas|].
  injection Hs as <-. injection Hsp as <-. injection Ht as <-. injection Htp as <-.
  apply list_elem_of_further, list_elem_of_further, list_elem_of_here.
Defined.

(** ** Head of the text and node bodies *)

Lemma join_app sep (l k : list string) :
  l ≠ [] → k ≠ [] → join sep (l ++ k) = join sep l +:+ sep +:+ join sep k.
Proof.
  intros Hl Hk. induction l as [|x l IH]; [done|].
  destruct l as [|y l].
  - destruct k as [|z k]; [done|]. reflexivity.
  - rewrite <- !app_comm_cons, !join_cons_cons.
    rewrite (app_comm_cons l k y), IH by done.
    by rewrite !append_assoc.
Qed.

(** The head of every generated text and the build file. A successful
    compilation starts with the package line, the same two imports
    whatever the nodes are, and a comment holding the pipeline name (or
    [Generated Pipeline] when none is given), the numbers of nodes and
    edges passed in and the time stamp; the build file is the same text for
    every pipeline. *)
Theorem generateCodeFromPipeline_header (clock : Clock) nodes edges pipelineName r :
  generateCodeFromPipeline clock nodes edges pipelineName = Return r →
  success r = true →
  ∃ rest,
    kotlinCode r =
      Some (lines [
              "package com.google.ai.edge.gallery.rag.generated";
              "";
              "import android.app.Application";
              "import com.google.ai.edge.gallery.rag.RagPipeline";
              "";
              "/**";
              " * Generated RAG Pipeline: " +:+ orElse pipelineName "Generated Pipeline";
              " * Nodes: " +:+ pretty (length nodes);
              " * Edges: " +:+ pretty (length edges);
              " * Generated at: " +:+ clk_generatedAt clock;
              " */"]
            +:+ nl +:+ rest)
    ∧ buildGradle r =
        Some (lines [
                "dependencies {";
                "    implementation(" +:+ dq +:+ "com.google.ai.edge:local-agents-rag:1.0.0" +:+ dq +:+ ")";
                "    implementation(" +:+ dq +:+ "androidx.lifecycle:lifecycle-viewmodel-ktx:2.7.0" +:+ dq +:+ ")";
                "}"]).
Proof.
  unfold generateCodeFromPipeline. intros Hr Hsuccess.
  set (p := buildPipeline clock nodes edges (orElse pipelineName "Generated Pipeline")) in *.
  destruct (success_emitted _ _ _ Hr Hsuccess)
    as (order & code & _ & _ & Hcode & ->).
  unfold generateKotlinCode in Hcode.
  destruct (generateClassBody p order) as [classBody|]; simpl in Hcode; [|done].
  destruct (generateNodeConfigurations p) as [configs|]; simpl in Hcode; [|done].
  destruct (generateExecutionSequence p order) as [calls|]; simpl in Hcode; [|done].
  injection Hcode as <-.
  set (L := kotlinTemplateLines p (join nl requiredImports) classBody
              (clk_generatedAt clock) configs calls (generateOutputExtraction p)).
  exists (join nl (drop 10 L)). split; [|reflexivity].
  simpl kotlinCode. f_equal. unfold kotlinTemplate, lines.
  match goal with |- _ = ?header => change (join nl L = header) end.
  rewrite <- (take_drop 10 L) at 1.
  rewrite join_app by done. f_equal.
  unfold L, kotlinTemplateLines, p. simpl take.
  rewrite length_fmap, length_fmap.
  rewrite !join_cons_cons. unfold targetPackage. simpl join.
  rewrite !append_assoc. reflexivity.
Qed.

Lemma generateCodeFromPipeline_header_witness :
  ∃ r rest,
    generateCodeFromPipeline Sample.clock Sample.validNodes Sample.validEdges None = Return r
    ∧ success r = true
    ∧ kotlinCode r =
        Some (lines [
                "package com.google.ai.edge.gallery.rag.generated";
                "";
                "import android.app.Application";
                "import com.google.ai.edge.gallery.rag.RagPipeline";
                "";
                "/**";
                " * Generated RAG Pipeline: Generated Pipeline";
                " * Nodes: 2";
                " * Edges: 1";
                " * Generated at: 2025-06-19T03:30:41.720Z";
                " */"]
              +:+ nl +:+ rest).
Proof.
  eexists.
  destruct (generateCodeFromPipeline_header Sample.clock Sample.validNodes
              Sample.validEdges None _ eq_refl eq_refl) as (rest & Hcode & _).
  exists rest. split_and!; [reflexivity|reflexivity|exact Hcode].
Defined.

(** The body emitted for a node is chosen by its category and by its label
    read without regard to case, and refers to the pipeline only through
    the edges that end at the node's id: description, icon, ports and
    configuration of the node have no influence on it. *)
Theorem generateNodeLogic_label (p : Pipeline) (node node' : PipelineNode) :
  n_id node = n_id node' →
  d_type (n_data node) = d_type (n_data node') →
  toLowerCase (d_label (n_data node)) = toLowerCase (d_label (n_data node')) →
  generateNodeLogic p node = generateNodeLogic p node'.
Proof.
  intros Hid Htype Hlabel.
  unfold generateNodeLogic, generateInputNodeLogic, generateProcessingNodeLogic,
    generateRetrievalNodeLogic, generateLlmNodeLogic, generateLogicNodeLogic,
    generateOutputNodeLogic, contextChunksExpr, hasInputOn, inputConnectionsOf.
  by rewrite Hid, Htype, Hlabel.
Qed.

Lemma generateNodeLogic_label_witness :
  generateNodeLogic Sample.valid (buildNode Sample.pdfInput)
  = generateNodeLogic Sample.valid
      (buildNode (Sample.node "input1" "input" "pdf INPUT" [Sample.port "file" TEXT] [])).
Proof.
  apply generateNodeLogic_label; reflexivity.
Defined.

(** ** The constructor on nodes of any shape *)

Lemma mapM_throws {A B} (f : A → Exc B) (l : list A) x message :
  x ∈ l → f x = Throw message → ∃ message', mapM f l = Throw message'.
Proof.
  intros Hin Hx. induction Hin as [x l|x y l Hin IH]; simpl.
  - rewrite Hx. eauto.
  - destruct (f y) as [b|message']; simpl; [|eauto].
    destruct (IH Hx) as [message' ->]. eauto.
Qed.

Lemma Untyped_findNode_buildNode (nodes : list Untyped.Node) id :
  Untyped.findNode (Untyped.buildNode <$> nodes) id
  = Untyped.buildNode <$> List.find (λ n, bool_decide (Untyped.rn_id n = id)) nodes.
Proof.
  unfold Untyped.findNode. induction nodes as [|node nodes IH]; [done|].
  simpl. by destruct (bool_decide (Untyped.rn_id node = id)).
Qed.

Lemma Untyped_find_not_array outputs handle :
  Untyped.truthy outputs = true → Untyped.isArray outputs = false →
  ∃ message, Untyped.find outputs handle = Throw message.
Proof. destruct outputs; simpl; intros Ht Ha; try done; eauto. Qed.

Lemma untyped_orString (o : option string) dflt :
  Untyped.orUnknown (untypedString o) (Untyped.UString dflt)
  = Untyped.UString (orString o dflt).
Proof.
  unfold Untyped.orUnknown, orString. destruct o as [s|]; simpl; [|done].
  by destruct (decide (s = "")) as [->|Hs];
    [|rewrite bool_decide_eq_false_2 by done].
Qed.

Lemma untyped_orPorts (o : option (list Port)) :
  Untyped.orUnknown (untypedPorts o) (Untyped.UArray [])
  = Untyped.UArray (untypedPort <$> orElse o []).
Proof. by destruct o. Qed.

Lemma untyped_buildNode (node : FlowNode) :
  Untyped.buildNode (untypedNode node) = untypedPipelineNode (buildNode node).
Proof.
  unfold Untyped.buildNode, untypedPipelineNode, buildNode. simpl.
  by rewrite !untyped_orString, !untyped_orPorts.
Qed.

Lemma untyped_findNode (nodes : list PipelineNode) id :
  Untyped.findNode (untypedPipelineNode <$> nodes) id
  = untypedPipelineNode <$> findNode nodes id.
Proof.
  unfold Untyped.findNode, findNode. induction nodes as [|node nodes IH]; [done|].
  simpl. by destruct (bool_decide (n_id node = id)).
Qed.

Lemma untyped_findPort (ports : list Port) handle :
  Untyped.findPort (untypedPort <$> ports) (untypedHandle handle)
  = Return (untypedPort <$> findPort ports handle).
Proof.
  unfold findPort. induction ports as [|port ports IH]; [done|].
  rewrite fmap_cons. simpl. rewrite IH.
  destruct handle as [s|]; simpl.
  - destruct (decide (port_id port = s)) as [->|Hne].
    + by rewrite !bool_decide_eq_true_2.
    + rewrite !bool_decide_eq_false_2; [done|congruence|done].
  - done.
Qed.

Lemma untyped_inferDataType (nodes : list PipelineNode) (edge : FlowEdge) :
  Untyped.inferDataType (untypedEdge edge) (untypedPipelineNode <$> nodes)
  = Return (Untyped.UString (dataTypeName (inferDataType edge nodes))).
Proof.
  unfold Untyped.inferDataType, inferDataType. simpl.
  rewrite untyped_findNode.
  destruct (findNode nodes (fe_source edge)) as [sourceNode|]; simpl; [|done].
  rewrite untyped_findPort. simpl.
  destruct (findPort _ (fe_sourceHandle edge)) as [port|]; simpl; [|done].
  by destruct (port_dataType port).
Qed.

Lemma untyped_handleOr handle dflt :
  Untyped.handleOr (untypedHandle handle) dflt = orString handle dflt.
Proof. by destruct handle. Qed.

(** On nodes and edges of the declared shapes the constructor returns, and
    what it stores is the pipeline of [buildPipeline] as modelled on such
    nodes: there, and only there, the typed model speaks for the code. *)
Lemma untyped_buildPipeline (clock : Clock) nodes edges name :
  Untyped.buildPipeline clock (untypedNode <$> nodes) (untypedEdge <$> edges) name
  = Return (untypedPipeline (buildPipeline clock nodes edges name)).
Proof.
  unfold Untyped.buildPipeline, buildPipeline, untypedPipeline. simpl.
  assert (Hnodes : Untyped.buildNode <$> (untypedNode <$> nodes)
                   = untypedPipelineNode <$> (buildNode <$> nodes)).
  { rewrite <- !list_fmap_compose. apply list_fmap_ext.
    intros i node _. apply untyped_buildNode. }
  rewrite Hnodes. set (pipelineNodes := buildNode <$> nodes).
  assert (Hedges : mapM (Untyped.buildEdge (untypedPipelineNode <$> pipelineNodes))
                     (untypedEdge <$> edges)
                   = Return (untypedPipelineEdge <$> (buildEdge pipelineNodes <$> edges))).
  { clearbody pipelineNodes. induction edges as [|edge edges IH]; [done|].
    rewrite !fmap_cons. simpl. unfold Untyped.buildEdge at 1.
    rewrite untyped_inferDataType. simpl. rewrite IH. simpl.
    unfold untypedPipelineEdge at 2. simpl. by rewrite !untyped_handleOr. }
  rewrite Hedges. simpl. by rewrite !length_fmap.
Qed.

(** Claim C10 fails on the code. The constructor of [CodeGenerator] runs
    [buildPipeline] before [generate] opens its [try]: whenever some edge
    leaves a node whose [data.outputs] is a truthy value other than an
    array, [inferDataType] calls a [find] that is no function, and the
    [TypeError] leaves [generateCodeFromPipeline], whatever [generate]
    would have done. *)
Theorem generateCodeFromPipeline_escapes (generate : Untyped.Pipeline → Exc GeneratedCode)
    (clock : Clock) nodes edges pipelineName edge sourceNode :
  edge ∈ edges →
  List.find (λ n, bool_decide (Untyped.rn_id n = Untyped.re_source edge)) nodes
    = Some sourceNode →
  Untyped.truthy (Untyped.rn_outputs sourceNode) = true →
  Untyped.isArray (Untyped.rn_outputs sourceNode) = false →
  ∃ message,
    Untyped.generateCodeFromPipeline generate clock nodes edges pipelineName
    = Throw message.
Proof.
  intros Hin Hsource Htruthy Harray.
  unfold Untyped.generateCodeFromPipeline, Untyped.CodeGenerator, Untyped.buildPipeline.
  destruct (Untyped_find_not_array _ (Untyped.re_sourceHandle edge) Htruthy Harray)
    as [message Hfind].
  assert (Hedge : Untyped.buildEdge (Untyped.buildNode <$> nodes) edge = Throw message).
  { unfold Untyped.buildEdge, Untyped.inferDataType.
    rewrite Untyped_findNode_buildNode, Hsource. simpl.
    unfold Untyped.orUnknown. rewrite Htruthy. by rewrite Hfind. }
  destruct (mapM_throws _ _ _ _ Hin Hedge) as [message' ->]. simpl. eauto.
Qed.

Lemma generateCodeFromPipeline_escapes_witness :
  ∃ message,
    Untyped.generateCodeFromPipeline
      (λ _, generate Sample.valid (clk_generatedAt Sample.clock))
      Sample.clock Sample.outputsNotArray (untypedEdge <$> Sample.validEdges) None
    = Throw message.
Proof.
  apply (generateCodeFromPipeline_escapes _ Sample.clock Sample.outputsNotArray
           (untypedEdge <$> Sample.validEdges) None
           (untypedEdge (Sample.edge "edge1" "input1" "output1" (Some "text") (Some "text")))
           {| Untyped.rn_id := "input1";
              Untyped.rn_type := Untyped.UString "input";
              Untyped.rn_label := Untyped.UString "Text Input";
              Untyped.rn_description := Untyped.UUndefined;
              Untyped.rn_icon := Untyped.UUndefined;
              Untyped.rn_inputs := Untyped.UArray [];
              Untyped.rn_outputs := Untyped.UNumber "7";
              Untyped.rn_config := None |}).
  - apply list_elem_of_here.
  - reflexivity.
  - reflexivity.
  - reflexivity.
Defined.

(** The same call with the nodes of [Sample.valid] as they are returns the
    result of [generate]; with [data.outputs] the number 7 it throws, and
    [generate], which would have reported the call of [find] as a failure
    from inside its [try], is not reached. *)
Example generateCodeFromPipeline_outputsNotArray
    (generate : Untyped.Pipeline → Exc GeneratedCode) :
  Untyped.generateCodeFromPipeline generate Sample.clock
    (untypedNode <$> Sample.validNodes) (untypedEdge <$> Sample.validEdges) None
  = generate (untypedPipeline
                (buildPipeline Sample.clock Sample.validNodes Sample.validEdges
                   "Generated Pipeline"))
  ∧ Untyped.generateCodeFromPipeline generate Sample.clock
      Sample.outputsNotArray (untypedEdge <$> Sample.validEdges) None
    = Throw "sourceNode.data.outputs.find is not a function".
Proof. split; reflexivity. Qed.

